(** * AvatarCropDialog: viewport transform, pointer drag and raster export

    A shallow embedding of [src/components/settings/AvatarCropDialog.tsx].

    Numbers.  The component computes with JavaScript numbers, that is, in
    binary64.  The file reads the arithmetic of the source in two ways, both
    operator by operator.

    - The exact reading: numbers are rationals ([Q]) and no operator rounds.
      It carries the statements that do not depend on rounding: the order
      structure of [Math.min] and [Math.max], equality of two expressions
      that the source computes with the same operators in the same order,
      the state machine.

    - The rounded reading ([Module Binary64]): every [+], [-], [*] and [/]
      of the source is followed by [round53], rounding to nearest, ties to
      even, at 53 significant bits, as binary64 does.  The exponent range is
      not bounded, so overflow and underflow are not modelled; the
      dimensions, scales and offsets of the dialog stay far from both.  It
      carries the statements about the geometry, which hold up to rounding
      only.

    The non-finite values ([Infinity], [NaN]) are not rationals, so the one
    division whose divisor is not guarded by the source ([handleApply]) is
    a partial operation.  [===] on numbers is numeric equality, hence
    [Qeq]. *)

From Stdlib Require Import QArith Qminmax Lqa Lia List Bool String.
From Stdlib Require Import Qround Qpower Qabs.
From Stdlib Require Import PrimFloat SpecFloat FloatOps.
Import ListNotations.

Open Scope Q_scope.

(** ** Constants and data *)

Definition CROP_SIZE : Q := 240.
Definition OUTPUT_SIZE : Q := 256.

(** [{ width: number; height: number }], the [imageSize] state cell. *)
Record Size := mkSize { width : Q; height : Q }.

(** [{ x: number; y: number }], the [offset] prop. *)
Record Offset := mkOffset { x : Q; y : Q }.

(** The content of the [dragState] ref while a drag is in progress. *)
Record DragSnapshot := mkDrag {
  drag_x : Q;
  drag_y : Q;
  drag_offsetX : Q;
  drag_offsetY : Q
}.

(** [!n] for a number [n]: true exactly when [n] is zero. *)
Definition falsy (n : Q) : bool := Qeq_bool n 0.

(** [a.x === b.x && a.y === b.y] *)
Definition offset_eqb (a b : Offset) : bool :=
  Qeq_bool (x a) (x b) && Qeq_bool (y a) (y b).

Definition offset_eq (a b : Offset) : Prop :=
  x a == x b /\ y a == y b.

(** [!imageSize.width || !imageSize.height] *)
Definition unknownSize (imageSize : Size) : bool :=
  falsy (width imageSize) || falsy (height imageSize).

(** ** Viewport transform engine *)

(** The body of the [baseScale] memo, with the frame side as an argument. *)
Definition baseScaleOf (frameSize : Q) (imageSize : Size) : Q :=
  if unknownSize imageSize then 1
  else Qmax (frameSize / width imageSize) (frameSize / height imageSize).

(** [baseScale], lines 42-45: the memo at the constant [CROP_SIZE]. *)
Definition baseScale (imageSize : Size) : Q := baseScaleOf CROP_SIZE imageSize.

(** [clampOffset], lines 47-58.  [imageSize] is the state cell the closure
    reads. *)
Definition clampOffset (imageSize : Size) (nextOffset : Offset) (nextScale : Q)
  : Offset :=
  if unknownSize imageSize then nextOffset
  else
    let displayScale := baseScale imageSize * nextScale in
    let displayWidth := width imageSize * displayScale in
    let displayHeight := height imageSize * displayScale in
    let maxX := Qmax 0 ((displayWidth - CROP_SIZE) / 2) in
    let maxY := Qmax 0 ((displayHeight - CROP_SIZE) / 2) in
    {| x := Qmin maxX (Qmax (- maxX) (x nextOffset));
       y := Qmin maxY (Qmax (- maxY) (y nextOffset)) |}.

(** ** The displayed image and the export geometry

    [handleApply], lines 117-124.  The image is centred in the frame and then
    translated by [offset]; [imageLeft]/[imageTop] is its top-left corner in
    frame coordinates. *)

Definition displayScale (imageSize : Size) (scale : Q) : Q :=
  baseScale imageSize * scale.

Definition displayWidth (imageSize : Size) (scale : Q) : Q :=
  width imageSize * displayScale imageSize scale.

Definition displayHeight (imageSize : Size) (scale : Q) : Q :=
  height imageSize * displayScale imageSize scale.

Definition imageLeft (imageSize : Size) (scale : Q) (offset : Offset) : Q :=
  CROP_SIZE / 2 - displayWidth imageSize scale / 2 + x offset.

Definition imageTop (imageSize : Size) (scale : Q) (offset : Offset) : Q :=
  CROP_SIZE / 2 - displayHeight imageSize scale / 2 + y offset.

(** JavaScript division.  A zero divisor gives [Infinity], [-Infinity] or
    [NaN], none of which is a rational: [None]. *)
Definition jsDiv (a b : Q) : option Q :=
  if falsy b then None else Some (a / b).

Record SourceRect := mkRect { sourceX : Q; sourceY : Q; sourceSize : Q }.

(** Lines 117-124: the source rectangle handed to [drawImage]. *)
Definition sourceRect (imageSize : Size) (scale : Q) (offset : Offset)
  : option SourceRect :=
  let displayScale := baseScale imageSize * scale in
  let displayWidth := width imageSize * displayScale in
  let displayHeight := height imageSize * displayScale in
  let imageLeft := CROP_SIZE / 2 - displayWidth / 2 + x offset in
  let imageTop := CROP_SIZE / 2 - displayHeight / 2 + y offset in
  match jsDiv (0 - imageLeft) displayScale,
        jsDiv (0 - imageTop) displayScale,
        jsDiv CROP_SIZE displayScale with
  | Some sourceX, Some sourceY, Some sourceSize =>
      Some {| sourceX := sourceX; sourceY := sourceY;
              sourceSize := sourceSize |}
  | _, _, _ => None
  end.

(** A square frame of the specification: its origin, its centre, its side. *)
Record Frame := mkFrame {
  frameOrigin : Offset;
  frameCenter : Offset;
  frameSize : Q
}.

Definition cropFrame : Frame :=
  {| frameOrigin := {| x := 0; y := 0 |};
     frameCenter := {| x := CROP_SIZE / 2; y := CROP_SIZE / 2 |};
     frameSize := CROP_SIZE |}.

(** The derivation of section 4.3 of the specification, written from its
    words for an arbitrary square frame: [imageOrigin = frameCenter -
    displaySize / 2 + offset], [sourceOrigin = (frameOrigin - imageOrigin) /
    displayScale], [sourceSize = frameSize / displayScale].  The quotients
    are undefined when [displayScale] is zero. *)
Definition analyticSourceRect (frame : Frame) (native : Size)
    (base scale : Q) (offset : Offset) : option SourceRect :=
  let displayScale := base * scale in
  let displaySize :=
    {| width := width native * displayScale;
       height := height native * displayScale |} in
  let imageOrigin :=
    {| x := x (frameCenter frame) - width displaySize / 2 + x offset;
       y := y (frameCenter frame) - height displaySize / 2 + y offset |} in
  if falsy displayScale then None
  else
    Some {| sourceX := (x (frameOrigin frame) - x imageOrigin) / displayScale;
            sourceY := (y (frameOrigin frame) - y imageOrigin) / displayScale;
            sourceSize := frameSize frame / displayScale |}.

(** The clamp of section 4.1 of the specification, written from its words:
    each component is brought into [[-max, max]]. *)
Definition clampInto (lo hi v : Q) : Q :=
  if Qle_bool v lo then lo else if Qle_bool hi v then hi else v.

Definition clampOffset_spec (native : Size) (base frame : Q)
    (offset : Offset) (scale : Q) : Offset :=
  let displayScale := base * scale in
  let maxX := Qmax 0 ((width native * displayScale - frame) / 2) in
  let maxY := Qmax 0 ((height native * displayScale - frame) / 2) in
  {| x := clampInto (- maxX) maxX (x offset);
     y := clampInto (- maxY) maxY (y offset) |}.

(** ** The dialog as a state machine

    [Dialog] gathers what the component reads and writes: the props held by
    the parent ([open], [scale], [offset]), its own hooks ([imageSize],
    [dragState], [isDragging]) and the pointers captured by the frame, by
    pointer id.  The
    component is rendered with its [open] prop and returns [null] while
    closed (line 144): it stays mounted, so its refs and state cells live
    across a close and a reopen. *)

Record PointerEvent := mkPointer {
  pointerType : string;
  button : Z;
  pointerId : Z;
  clientX : Q;
  clientY : Q
}.

Record Dialog := mkDialog {
  open : bool;
  scale : Q;
  offset : Offset;
  imageSize : Size;
  dragState : option DragSnapshot;
  isDragging : bool;
  pointerCapture : list Z
}.

(** Modelled from the spec: the parent's [onOffsetChange] is not in the
    source; the specification makes [offset] shared state that receives each
    value the engine derives, so the callback stores its argument. *)
Definition onOffsetChange (value : Offset) (d : Dialog) : Dialog :=
  {| open := open d; scale := scale d; offset := value;
     imageSize := imageSize d; dragState := dragState d;
     isDragging := isDragging d; pointerCapture := pointerCapture d |}.

Definition setImageSize (value : Size) (d : Dialog) : Dialog :=
  {| open := open d; scale := scale d; offset := offset d;
     imageSize := value; dragState := dragState d;
     isDragging := isDragging d; pointerCapture := pointerCapture d |}.

(** The parent changes the [open] prop. *)
Definition setOpen (value : bool) (d : Dialog) : Dialog :=
  {| open := value; scale := scale d; offset := offset d;
     imageSize := imageSize d; dragState := dragState d;
     isDragging := isDragging d; pointerCapture := pointerCapture d |}.

(** The re-clamp effect, lines 60-64. *)
Definition reclampEffect (d : Dialog) : Dialog :=
  let clamped := clampOffset (imageSize d) (offset d) (scale d) in
  if offset_eqb clamped (offset d) then d
  else onOffsetChange clamped d.

(** The reset effect, lines 66-70. *)
Definition openEffect (d : Dialog) : Dialog :=
  if negb (open d) then setImageSize {| width := 0; height := 0 |} d
  else d.

(** The effects after a render, in the order of their declaration.  Both are
    re-run after every transition; [flushEffects_settled] shows that a
    further pass changes nothing. *)
Definition flushEffects (d : Dialog) : Dialog :=
  openEffect (reclampEffect d).

(** [element.setPointerCapture(id)]: the pointer [id] joins the captured
    ones; capturing it again changes nothing. *)
Definition setPointerCapture (id : Z) (captured : list Z) : list Z :=
  if existsb (Z.eqb id) captured then captured else id :: captured.

(** [element.releasePointerCapture(id)]: only the pointer [id] is
    released. *)
Definition releasePointerCapture (id : Z) (captured : list Z) : list Z :=
  filter (fun c => negb (Z.eqb c id)) captured.

(** [handlePointerDown], lines 72-82. *)
Definition handlePointerDown (event : PointerEvent) (d : Dialog) : Dialog :=
  if String.eqb (pointerType event) "mouse" && negb (button event =? 0)%Z
  then d
  else
    {| open := open d; scale := scale d; offset := offset d;
       imageSize := imageSize d;
       dragState := Some {| drag_x := clientX event;
                            drag_y := clientY event;
                            drag_offsetX := x (offset d);
                            drag_offsetY := y (offset d) |};
       isDragging := true;
       pointerCapture :=
         setPointerCapture (pointerId event) (pointerCapture d) |}.

(** [handlePointerMove], lines 84-93. *)
Definition handlePointerMove (event : PointerEvent) (d : Dialog) : Dialog :=
  match dragState d with
  | None => d
  | Some current =>
      let deltaX := clientX event - drag_x current in
      let deltaY := clientY event - drag_y current in
      let nextOffset :=
        clampOffset (imageSize d)
          {| x := drag_offsetX current + deltaX;
             y := drag_offsetY current + deltaY |}
          (scale d) in
      onOffsetChange nextOffset d
  end.

(** [handlePointerUp], lines 95-100; also bound to [onPointerLeave]. *)
Definition handlePointerUp (event : PointerEvent) (d : Dialog) : Dialog :=
  match dragState d with
  | None => d
  | Some _ =>
      {| open := open d; scale := scale d; offset := offset d;
         imageSize := imageSize d;
         dragState := None;
         isDragging := false;
         pointerCapture :=
           releasePointerCapture (pointerId event) (pointerCapture d) |}
  end.

(** [handleImageLoad], lines 102-108, for a mounted image whose natural
    dimensions are [natural]. *)
Definition handleImageLoad (natural : Size) (d : Dialog) : Dialog :=
  setImageSize {| width := width natural; height := height natural |} d.

Inductive Event :=
| PointerDown (event : PointerEvent)
| PointerMove (event : PointerEvent)
| PointerUp (event : PointerEvent)
| PointerLeave (event : PointerEvent)
| ImageLoad (natural : Size)
| SetOpen (value : bool).

(** The component renders [null] while [open] is false (line 144), so the
    frame and the image exist, and deliver events, only while it is open. *)
Definition handle (ev : Event) (d : Dialog) : Dialog :=
  match ev with
  | SetOpen value => setOpen value d
  | PointerDown event => if open d then handlePointerDown event d else d
  | PointerMove event => if open d then handlePointerMove event d else d
  | PointerUp event => if open d then handlePointerUp event d else d
  | PointerLeave event => if open d then handlePointerUp event d else d
  | ImageLoad natural => if open d then handleImageLoad natural d else d
  end.

Definition step (ev : Event) (d : Dialog) : Dialog :=
  flushEffects (handle ev d).

Definition run (evs : list Event) (d : Dialog) : Dialog :=
  fold_left (fun acc ev => step ev acc) evs d.

(** ** Raster export

    [handleApply], lines 110-142.  The DOM is an environment: what
    [imageRef.current] and [getContext('2d')] hold, and what [toBlob] hands
    to its callback for a given canvas.  A member call on [null] throws a
    [TypeError]; the sink [onApply] is recorded as the list of its calls. *)

(** The state of the [<img>] element as [drawImage] sees it: the request
    failed (broken), the image is not fully decodable yet or has a zero
    natural side, or it can be drawn. *)
Inductive ImageState :=
| ImageBroken
| ImageNotReady
| ImageUsable.

Inductive Completion (A : Type) :=
| Normal (a : A)
| Throw (e : string).
Arguments Normal {A} a.
Arguments Throw {A} e.

Record DrawImage := mkDraw {
  sx : Q; sy : Q; sWidth : Q; sHeight : Q;
  dx : Q; dy : Q; dWidth : Q; dHeight : Q
}.

Record Canvas := mkCanvas {
  canvas_width : Q;
  canvas_height : Q;
  drawn : list DrawImage
}.

(** What [drawImage] leaves on the canvas: the source rectangle scaled into
    the square [[0, OUTPUT_SIZE]]; nothing when an argument is not finite. *)
Definition paint (source : option SourceRect) (canvas : Canvas) : Canvas :=
  match source with
  | Some r =>
      {| canvas_width := canvas_width canvas;
         canvas_height := canvas_height canvas;
         drawn := drawn canvas ++
           [ {| sx := sourceX r; sy := sourceY r;
                sWidth := sourceSize r; sHeight := sourceSize r;
                dx := 0; dy := 0;
                dWidth := OUTPUT_SIZE; dHeight := OUTPUT_SIZE |} ] |}
  | None => canvas
  end.

(** The canvas of lines 112-114. *)
Definition outputCanvas : Canvas :=
  {| canvas_width := OUTPUT_SIZE; canvas_height := OUTPUT_SIZE; drawn := [] |}.

Section RasterExport.
Variables RenderingContext Blob : Type.

Record Dom := mkDom {
  imageRef_current : option ImageState;
  getContext_2d : option RenderingContext;
  toBlob : Canvas -> option Blob
}.

Record Applied := mkApplied {
  outcome : Completion unit;
  onApply_calls : list Blob
}.

(** [ctx.drawImage(image, sx, sy, sw, sh, 0, 0, OUTPUT_SIZE, OUTPUT_SIZE)]:
    a [TypeError] on a [null] receiver or image; for an image element the
    browser first checks its usability: a broken image throws an
    [InvalidStateError], an image that is not ready is not drawn, and the
    call returns. *)
Definition drawImage (ctx : option RenderingContext)
    (image : option ImageState) (source : option SourceRect)
    (canvas : Canvas) : Completion Canvas :=
  match ctx, image with
  | Some _, Some ImageBroken => Throw "InvalidStateError"
  | Some _, Some ImageNotReady => Normal canvas
  | Some _, Some ImageUsable => Normal (paint source canvas)
  | _, _ => Throw "TypeError"
  end.

Definition isNull {A : Type} (v : option A) : bool :=
  match v with Some _ => false | None => true end.

Definition handleApply (dom : Dom) (d : Dialog) : Applied :=
  if isNull (imageRef_current dom) then
    {| outcome := Normal tt; onApply_calls := [] |}
  else
    let canvas := outputCanvas in
    let ctx := getContext_2d dom in
    if isNull ctx then {| outcome := Normal tt; onApply_calls := [] |}
    else
      match drawImage ctx (imageRef_current dom)
              (sourceRect (imageSize d) (scale d) (offset d)) canvas with
      | Throw e => {| outcome := Throw e; onApply_calls := [] |}
      | Normal painted =>
          match toBlob dom painted with
          | Some blob => {| outcome := Normal tt; onApply_calls := [blob] |}
          | None => {| outcome := Normal tt; onApply_calls := [] |}
          end
      end.
End RasterExport.

Arguments mkDom {RenderingContext Blob}.
Arguments imageRef_current {RenderingContext Blob}.
Arguments getContext_2d {RenderingContext Blob}.
Arguments toBlob {RenderingContext Blob}.
Arguments outcome {Blob}.
Arguments onApply_calls {Blob}.
Arguments mkApplied {Blob}.
Arguments drawImage {RenderingContext}.
Arguments handleApply {RenderingContext Blob}.

(** The canvas that [handleApply] hands to [toBlob] after drawing a usable
    image. *)
Definition exportedCanvas (d : Dialog) : Canvas :=
  paint (sourceRect (imageSize d) (scale d) (offset d)) outputCanvas.

(** ** Auxiliary notions of the statements *)

(** The press is accepted: not a mouse, or the primary button. *)
Definition primaryPress (event : PointerEvent) : bool :=
  negb (String.eqb (pointerType event) "mouse" && negb (button event =? 0)%Z).

Definition snapshotOf (event : PointerEvent) (o : Offset) : DragSnapshot :=
  {| drag_x := clientX event; drag_y := clientY event;
     drag_offsetX := x o; drag_offsetY := y o |}.

(** The candidate offset of a move, before the clamp. *)
Definition candidate (current : DragSnapshot) (event : PointerEvent) : Offset :=
  {| x := drag_offsetX current + (clientX event - drag_x current);
     y := drag_offsetY current + (clientY event - drag_y current) |}.

(** A dialog at rest on a decoded 240 x 480 image. *)
Definition idleDialog : Dialog :=
  {| open := true; scale := 1; offset := {| x := 0; y := 0 |};
     imageSize := {| width := 240; height := 480 |};
     dragState := None; isDragging := false; pointerCapture := [] |}.

(** Numeric equality of source rectangles, [None] standing for a rectangle
    whose coordinates are not finite. *)
Definition rect_eq (a b : option SourceRect) : Prop :=
  match a, b with
  | Some r, Some r' =>
      sourceX r == sourceX r' /\ sourceY r == sourceY r' /\
      sourceSize r == sourceSize r'
  | None, None => True
  | _, _ => False
  end.

(** ** Zoom controls, lines 209-235

    The value each button hands to [onScaleChange]; [0.1] is the rational
    [1 / 10]. *)



(** The parent changes the [scale] prop. *)
Definition setScale (value : Q) (d : Dialog) : Dialog :=
  {| open := open d; scale := value; offset := offset d;
     imageSize := imageSize d; dragState := dragState d;
     isDragging := isDragging d; pointerCapture := pointerCapture d |}.

(** ** The avatar panel of [SettingsView.tsx], lines 340-400

    A string is truthy when it is not empty, a [File | null] when it is not
    [null]. *)

Definition truthy (s : string) : bool :=
  match s with EmptyString => false | String _ _ => true end.

Inductive AvatarSlot :=
| PreviewImage (src : string)
| StoredImage (src : string)
| Placeholder.

(** Lines 341-355: what the round avatar slot renders. *)
Definition avatarSlot (avatarPreview userAvatarSrc : string)
    (avatarRemovePending : bool) : AvatarSlot :=
  if truthy avatarPreview then PreviewImage avatarPreview
  else if negb avatarRemovePending && truthy userAvatarSrc
       then StoredImage userAvatarSrc
       else Placeholder.

(** Line 357: the "Clear preview" button is rendered. *)
Definition removeButtonShown (avatarPreview userAvatarSrc : string)
    (avatarRemovePending : bool) : bool :=
  truthy avatarPreview || (negb avatarRemovePending && truthy userAvatarSrc).

(** Line 367: the "Edit crop" button is rendered. *)
Definition editCropShown {File : Type} (avatarFile : option File)
    (avatarPreview : string) : bool :=
  match avatarFile with Some _ => true | None => false end
  || truthy avatarPreview.

(** Line 396: [disabled={!avatarFile}] on the Upload button. *)
Definition uploadDisabled {File : Type} (avatarFile : option File) : bool :=
  match avatarFile with Some _ => false | None => true end.



(** An event that finds no drag to act on: a move, a release or a leave, or
    a press of a non-primary mouse button. *)
Definition inert (ev : Event) : bool :=
  match ev with
  | PointerMove _ | PointerUp _ | PointerLeave _ => true
  | PointerDown event => negb (primaryPress event)
  | ImageLoad _ | SetOpen _ => false
  end.

(** The dragging flag is set exactly when a drag record exists. *)
Definition dragFlagAgrees (d : Dialog) : bool :=
  Bool.eqb (isDragging d)
    (match dragState d with Some _ => true | None => false end).

(** ** The rounded reading: binary64 arithmetic

    [round53] rounds a rational to the nearest number with 53 significant
    bits, ties to even.  [binade q] is the exponent [e] of the last place:
    [2 ^ (e + 52) <= q < 2 ^ (e + 53)] for a positive [q]. *)

Definition roundEven (q : Q) : Z :=
  let f := Qfloor q in
  match Qcompare (q - inject_Z f) (1 # 2) with
  | Lt => f
  | Gt => (f + 1)%Z
  | Eq => if Z.even f then f else (f + 1)%Z
  end.

Definition binade (q : Q) : Z :=
  let e := (Z.log2 (Qnum q) - Z.log2 (Zpos (Qden q)) - 53)%Z in
  if Qle_bool (2 ^ (e + 53)) q then (e + 1)%Z else e.

Definition roundPositive (q : Q) : Q :=
  let e := binade q in inject_Z (roundEven (q / 2 ^ e)) * 2 ^ e.

Definition round53 (q : Q) : Q :=
  let r := Qred q in
  match Qnum r with
  | Z0 => 0
  | Zpos _ => roundPositive r
  | Zneg _ => - roundPositive (- r)
  end.

(** Half a unit in the last place, relative to the value: [2 ^ -53]. *)
Definition unitRoundoff : Q := 1 # 9007199254740992.

(** The value of a hardware binary64 number, when it is finite. *)
Definition SF2Q (f : spec_float) : option Q :=
  match f with
  | S754_zero _ => Some 0
  | S754_finite s m e =>
      Some ((if s then - (1) else 1) * inject_Z (Zpos m) * 2 ^ e)
  | S754_infinity _ | S754_nan => None
  end.

Definition F2Q (f : float) : option Q := option_map Qred (SF2Q (Prim2SF f)).

(** The functions of the component with the source's operators rounded.
    [Math.min], [Math.max], unary minus and the comparisons are exact. *)
Module Binary64.

Definition add (a b : Q) : Q := round53 (a + b).
Definition sub (a b : Q) : Q := round53 (a - b).
Definition mul (a b : Q) : Q := round53 (a * b).
Definition div (a b : Q) : Q := round53 (a / b).

(** The body of the [baseScale] memo, with the frame side as an argument. *)
Definition baseScaleOf (frameSize : Q) (imageSize : Size) : Q :=
  if unknownSize imageSize then 1
  else Qmax (div frameSize (width imageSize))
            (div frameSize (height imageSize)).

(** [baseScale], lines 42-45. *)
Definition baseScale (imageSize : Size) : Q := baseScaleOf CROP_SIZE imageSize.

(** [clampOffset], lines 47-58. *)
Definition clampOffset (imageSize : Size) (nextOffset : Offset) (nextScale : Q)
  : Offset :=
  if unknownSize imageSize then nextOffset
  else
    let displayScale := mul (baseScale imageSize) nextScale in
    let displayWidth := mul (width imageSize) displayScale in
    let displayHeight := mul (height imageSize) displayScale in
    let maxX := Qmax 0 (div (sub displayWidth CROP_SIZE) 2) in
    let maxY := Qmax 0 (div (sub displayHeight CROP_SIZE) 2) in
    {| x := Qmin maxX (Qmax (- maxX) (x nextOffset));
       y := Qmin maxY (Qmax (- maxY) (y nextOffset)) |}.

(** [handleApply], lines 117-121. *)
Definition displayScale (imageSize : Size) (scale : Q) : Q :=
  mul (baseScale imageSize) scale.

Definition displayWidth (imageSize : Size) (scale : Q) : Q :=
  mul (width imageSize) (displayScale imageSize scale).

Definition displayHeight (imageSize : Size) (scale : Q) : Q :=
  mul (height imageSize) (displayScale imageSize scale).

Definition imageLeft (imageSize : Size) (scale : Q) (offset : Offset) : Q :=
  add (sub (div CROP_SIZE 2) (div (displayWidth imageSize scale) 2))
      (x offset).

Definition imageTop (imageSize : Size) (scale : Q) (offset : Offset) : Q :=
  add (sub (div CROP_SIZE 2) (div (displayHeight imageSize scale) 2))
      (y offset).

(** The displayed image covers the frame [[0, CROP_SIZE]] on both axes:
    it starts at or before 0 and ends at or after [CROP_SIZE]. *)
Definition coversFrame (imageSize : Size) (scale : Q) (offset : Offset)
  : bool :=
  Qle_bool (imageLeft imageSize scale offset) 0
  && Qle_bool CROP_SIZE
       (imageLeft imageSize scale offset + displayWidth imageSize scale)
  && Qle_bool (imageTop imageSize scale offset) 0
  && Qle_bool CROP_SIZE
       (imageTop imageSize scale offset + displayHeight imageSize scale).

(** [handleApply], lines 117-124: the source rectangle handed to
    [drawImage]; [None] when the divisor is zero. *)
Definition sourceRect (imageSize : Size) (scale : Q) (offset : Offset)
  : option SourceRect :=
  let displayScale := mul (baseScale imageSize) scale in
  let displayWidth := mul (width imageSize) displayScale in
  let displayHeight := mul (height imageSize) displayScale in
  let imageLeft :=
    add (sub (div CROP_SIZE 2) (div displayWidth 2)) (x offset) in
  let imageTop :=
    add (sub (div CROP_SIZE 2) (div displayHeight 2)) (y offset) in
  if falsy displayScale then None
  else
    Some {| sourceX := div (sub 0 imageLeft) displayScale;
            sourceY := div (sub 0 imageTop) displayScale;
            sourceSize := div CROP_SIZE displayScale |}.

End Binary64.

(** The margin by which rounding can let the frame show past an image of
    the given display size: [2 ^ -51 * (display + CROP_SIZE)]. *)
Definition coverTolerance (display : Q) : Q :=
  4 * unitRoundoff * (display + CROP_SIZE).

(** The margin, relative to the native side, by which rounding can let the
    export rectangle pass the image: [2 ^ -49]. *)
Definition rectTolerance : Q := 16 * unitRoundoff.

(** * Proofs *)

(** ** Elementary facts *)

Lemma falsy_true_iff (n : Q) : falsy n = true <-> n == 0.
Proof. unfold falsy. apply Qeq_bool_iff. Qed.

Lemma falsy_false_iff (n : Q) : falsy n = false <-> ~ n == 0.
Proof.
  rewrite <- falsy_true_iff. destruct (falsy n); split; intros; congruence.
Qed.

Lemma unknownSize_true_iff (s : Size) :
  unknownSize s = true <-> width s == 0 \/ height s == 0.
Proof.
  unfold unknownSize. rewrite orb_true_iff, !falsy_true_iff. tauto.
Qed.

Lemma unknownSize_positive (s : Size) :
  0 < width s -> 0 < height s -> unknownSize s = false.
Proof.
  intros Hw Hh. destruct (unknownSize s) eqn:E; [|reflexivity].
  apply unknownSize_true_iff in E. lra.
Qed.

(** Abstract every [Qmin]/[Qmax] of the goal by a variable constrained by its
    specification, leaving a problem of linear arithmetic. *)
Ltac forget_minmax :=
  repeat match goal with
  | |- context [Qmax ?a ?b] =>
      let m := fresh "m" in
      pose proof (Q.max_spec a b); set (m := Qmax a b) in *; clearbody m
  | |- context [Qmin ?a ?b] =>
      let m := fresh "m" in
      pose proof (Q.min_spec a b); set (m := Qmin a b) in *; clearbody m
  | H : context [Qmax ?a ?b] |- _ =>
      let m := fresh "m" in
      pose proof (Q.max_spec a b); set (m := Qmax a b) in *; clearbody m
  | H : context [Qmin ?a ?b] |- _ =>
      let m := fresh "m" in
      pose proof (Q.min_spec a b); set (m := Qmin a b) in *; clearbody m
  end.

(** [lra] does not read a division: halves are turned into products. *)
Ltac halves := unfold Qdiv in *; change (/ 2) with (1 # 2) in *.

Ltac minmax_lra := forget_minmax; halves; lra.

(** One axis of the clamp, as the source writes it. *)
Lemma clamp_axis_bounds (bound v : Q) :
  0 <= bound ->
  - bound <= Qmin bound (Qmax (- bound) v) <= bound.
Proof. intros. minmax_lra. Qed.

(** Case analysis on every comparison of the goal, innermost first. *)
Ltac split_compare :=
  repeat match goal with
  | |- context [Qcompare ?a ?b] =>
      lazymatch a with context [Qcompare _ _] => fail | _ => idtac end;
      lazymatch b with context [Qcompare _ _] => fail | _ => idtac end;
      destruct (Qcompare_spec a b)
  end.

(** [Qmin]/[Qmax] return one of their arguments; on an already clamped value
    the second clamp picks the same argument again. *)
Lemma clamp_axis_idem (bound v : Q) :
  0 <= bound ->
  Qmin bound (Qmax (- bound) (Qmin bound (Qmax (- bound) v)))
  = Qmin bound (Qmax (- bound) v).
Proof.
  intros Hb.
  unfold Qmin, Qmax, GenericMinMax.gmin, GenericMinMax.gmax.
  split_compare; try reflexivity; lra.
Qed.

Lemma clamp_axis_compat (bound v v' : Q) :
  v == v' ->
  Qmin bound (Qmax (- bound) v) == Qmin bound (Qmax (- bound) v').
Proof. intros. minmax_lra. Qed.

Lemma panBound_nonneg (d : Q) : 0 <= Qmax 0 ((d - CROP_SIZE) / 2).
Proof. apply Q.le_max_l. Qed.

(** The unfolding of [clampOffset] once the dimensions are known. *)
Lemma clampOffset_known (imageSize : Size) (o : Offset) (s : Q) :
  unknownSize imageSize = false ->
  clampOffset imageSize o s =
  let maxX :=
    Qmax 0 ((width imageSize * (baseScale imageSize * s) - CROP_SIZE) / 2) in
  let maxY :=
    Qmax 0 ((height imageSize * (baseScale imageSize * s) - CROP_SIZE) / 2) in
  {| x := Qmin maxX (Qmax (- maxX) (x o));
     y := Qmin maxY (Qmax (- maxY) (y o)) |}.
Proof. intros E. unfold clampOffset. rewrite E. reflexivity. Qed.

Lemma clampOffset_unknown (imageSize : Size) (o : Offset) (s : Q) :
  unknownSize imageSize = true -> clampOffset imageSize o s = o.
Proof. intros E. unfold clampOffset. rewrite E. reflexivity. Qed.

(** Clamping respects numeric equality of offsets. *)
Lemma clampOffset_compat (imageSize : Size) (o o' : Offset) (s : Q) :
  offset_eq o o' ->
  offset_eq (clampOffset imageSize o s) (clampOffset imageSize o' s).
Proof.
  intros [Hx Hy]. unfold clampOffset.
  destruct (unknownSize imageSize); [split; assumption|].
  split; cbn [x y]; apply clamp_axis_compat; assumption.
Qed.

Lemma offset_eqb_iff (a b : Offset) : offset_eqb a b = true <-> offset_eq a b.
Proof.
  unfold offset_eqb, offset_eq. rewrite andb_true_iff, !Qeq_bool_iff. tauto.
Qed.

Lemma offset_eq_refl (a : Offset) : offset_eq a a.
Proof. split; reflexivity. Qed.

(** The unfolding of the memo once the dimensions are known. *)
Lemma baseScaleOf_known (F : Q) (s : Size) :
  unknownSize s = false ->
  baseScaleOf F s = Qmax (F / width s) (F / height s).
Proof. intros E. unfold baseScaleOf. rewrite E. reflexivity. Qed.

(** ** Claims on the transform engine *)

(** The composition of [Qmin] and [Qmax] of the source is the interval clamp. *)
Lemma clampInto_minmax (bound v : Q) :
  0 <= bound ->
  Qmin bound (Qmax (- bound) v) == clampInto (- bound) bound v.
Proof.
  intros Hb. unfold clampInto.
  destruct (Qle_bool v (- bound)) eqn:E1.
  - apply Qle_bool_iff in E1. minmax_lra.
  - assert (L1 : - bound < v).
    { apply Qnot_le_lt. intros C. apply Qle_bool_iff in C. congruence. }
    destruct (Qle_bool bound v) eqn:E2.
    + apply Qle_bool_iff in E2. minmax_lra.
    + assert (L2 : v < bound).
      { apply Qnot_le_lt. intros C. apply Qle_bool_iff in C. congruence. }
      minmax_lra.
Qed.

(** The clamped offset, one axis at a time, in terms of the display size. *)
Lemma clampOffset_x_bounds (imageSize : Size) (o : Offset) (s : Q) :
  unknownSize imageSize = false ->
  let maxX := Qmax 0 ((displayWidth imageSize s - CROP_SIZE) / 2) in
  - maxX <= x (clampOffset imageSize o s) <= maxX.
Proof.
  intros E. rewrite clampOffset_known by assumption. cbn [x].
  apply clamp_axis_bounds, panBound_nonneg.
Qed.

Lemma clampOffset_y_bounds (imageSize : Size) (o : Offset) (s : Q) :
  unknownSize imageSize = false ->
  let maxY := Qmax 0 ((displayHeight imageSize s - CROP_SIZE) / 2) in
  - maxY <= y (clampOffset imageSize o s) <= maxY.
Proof.
  intros E. rewrite clampOffset_known by assumption. cbn [y].
  apply clamp_axis_bounds, panBound_nonneg.
Qed.

(** C2.  With known positive dimensions, [clampOffset] is the clamp of the
    specification: [displayScale = baseScale * scale], display size =
    native size times [displayScale], bound [max 0 ((display - frame) / 2)]
    per axis, each component brought into [[-bound, bound]]; when the display
    size equals the frame on an axis, the offset on that axis is [0]. *)
Theorem clampOffset_meets_spec (imageSize : Size) (s : Q) (o : Offset) :
  0 < width imageSize -> 0 < height imageSize ->
  let maxX := Qmax 0 ((displayWidth imageSize s - CROP_SIZE) / 2) in
  let maxY := Qmax 0 ((displayHeight imageSize s - CROP_SIZE) / 2) in
  offset_eq (clampOffset imageSize o s)
            (clampOffset_spec imageSize (baseScale imageSize) CROP_SIZE o s) /\
  (- maxX <= x (clampOffset imageSize o s) <= maxX) /\
  (- maxY <= y (clampOffset imageSize o s) <= maxY) /\
  (displayWidth imageSize s == CROP_SIZE ->
   x (clampOffset imageSize o s) == 0) /\
  (displayHeight imageSize s == CROP_SIZE ->
   y (clampOffset imageSize o s) == 0).
Proof.
  intros Hw Hh maxX maxY.
  assert (E : unknownSize imageSize = false)
    by (apply unknownSize_positive; assumption).
  pose proof (clampOffset_x_bounds imageSize o s E) as Bx.
  pose proof (clampOffset_y_bounds imageSize o s E) as By.
  cbv zeta in Bx, By. fold maxX in Bx. fold maxY in By.
  split; [|split; [exact Bx|split; [exact By|split]]].
  - rewrite clampOffset_known by assumption.
    unfold clampOffset_spec, offset_eq. cbn [x y].
    split; apply clampInto_minmax, panBound_nonneg.
  - intros D. assert (Z : maxX == 0).
    { subst maxX. set (dw := displayWidth imageSize s) in *. clearbody dw.
      unfold CROP_SIZE in *. minmax_lra. }
    lra.
  - intros D. assert (Z : maxY == 0).
    { subst maxY. set (dh := displayHeight imageSize s) in *. clearbody dh.
      unfold CROP_SIZE in *. minmax_lra. }
    lra.
Qed.

(** The scenario of section 8.7: a 240 x 480 image at scale 1; the horizontal
    axis is fully fit, the vertical bound is 120. *)
Lemma clampOffset_meets_spec_witness :
  x (clampOffset (mkSize 240 480) (mkOffset 50 200) 1) == 0 /\
  y (clampOffset (mkSize 240 480) (mkOffset 50 200) 1) == 120.
Proof.
  pose proof (clampOffset_meets_spec (mkSize 240 480) 1 (mkOffset 50 200))
    as H.
  cbn [width height] in H.
  destruct H as (_ & _ & _ & Hx & _); [reflexivity | reflexivity |].
  split; [apply Hx; reflexivity | reflexivity].
Defined.

(** A second clamp at the same scale returns the first clamp's result; the
    form in which the effect and the drag steps use it. *)
Lemma clampOffset_twice (imageSize : Size) (o : Offset) (s : Q) :
  clampOffset imageSize (clampOffset imageSize o s) s
  = clampOffset imageSize o s.
Proof.
  destruct (unknownSize imageSize) eqn:E.
  - rewrite !clampOffset_unknown by assumption. reflexivity.
  - rewrite !clampOffset_known by assumption. cbv zeta. cbn [x y].
    rewrite !clamp_axis_idem by apply panBound_nonneg. reflexivity.
Qed.

(** C4.  [clampOffset] is idempotent, whether or not the dimensions are
    known: clamping a clamped offset at the same scale gives it back, field
    for field. *)
Theorem clampOffset_idempotent (imageSize : Size) (o : Offset) (s : Q) :
  clampOffset imageSize (clampOffset imageSize o s) s
  = clampOffset imageSize o s.
Proof.
  unfold clampOffset. destruct (unknownSize imageSize) eqn:E.
  - reflexivity.
  - cbv zeta. cbn [x y]. f_equal; apply clamp_axis_idem, panBound_nonneg.
Qed.

(** C10.  While a cached dimension is unknown (zero), [clampOffset] returns
    its argument unchanged, and the re-clamp effect writes nothing. *)
Theorem clampOffset_unknown_identity (size : Size) (o : Offset) (s : Q) :
  width size == 0 \/ height size == 0 ->
  clampOffset size o s = o /\
  (forall d : Dialog, imageSize d = size -> reclampEffect d = d).
Proof.
  intros H. apply unknownSize_true_iff in H. split.
  - apply clampOffset_unknown. assumption.
  - intros d Hd. unfold reclampEffect. subst size.
    rewrite clampOffset_unknown by assumption.
    replace (offset_eqb (offset d) (offset d)) with true; [reflexivity|].
    symmetry. apply offset_eqb_iff, offset_eq_refl.
Qed.

Lemma clampOffset_unknown_identity_witness :
  clampOffset (mkSize 0 600) (mkOffset 1000 (-1000)) 2 = mkOffset 1000 (-1000)
  /\ (forall d : Dialog, imageSize d = mkSize 0 600 -> reclampEffect d = d).
Proof.
  apply (clampOffset_unknown_identity (mkSize 0 600)). left. reflexivity.
Defined.

(** ** The drag controller *)

Lemma reclampEffect_offset (d : Dialog) :
  offset_eq (offset (reclampEffect d))
            (clampOffset (imageSize d) (offset d) (scale d)).
Proof.
  unfold reclampEffect.
  destruct (offset_eqb _ _) eqn:E.
  - apply offset_eqb_iff in E. destruct E as [Ex Ey].
    split; symmetry; assumption.
  - apply offset_eq_refl.
Qed.

Lemma reclampEffect_frame (d : Dialog) :
  open (reclampEffect d) = open d /\
  scale (reclampEffect d) = scale d /\
  imageSize (reclampEffect d) = imageSize d /\
  dragState (reclampEffect d) = dragState d /\
  isDragging (reclampEffect d) = isDragging d /\
  pointerCapture (reclampEffect d) = pointerCapture d.
Proof.
  unfold reclampEffect. destruct (offset_eqb _ _); repeat split; reflexivity.
Qed.

(** On an offset that is already clamped the effect writes nothing. *)
Lemma reclampEffect_clamped (d : Dialog) :
  offset_eq (clampOffset (imageSize d) (offset d) (scale d)) (offset d) ->
  reclampEffect d = d.
Proof.
  intros H. unfold reclampEffect.
  apply offset_eqb_iff in H. rewrite H. reflexivity.
Qed.

Lemma reclampEffect_idem (d : Dialog) :
  reclampEffect (reclampEffect d) = reclampEffect d.
Proof.
  apply reclampEffect_clamped.
  unfold reclampEffect at 1 2 3 4.
  destruct (offset_eqb _ _) eqn:E.
  - apply offset_eqb_iff. assumption.
  - cbn [imageSize offset scale onOffsetChange].
    rewrite clampOffset_twice. apply offset_eq_refl.
Qed.

Lemma openEffect_open (d : Dialog) : open d = true -> openEffect d = d.
Proof. intros H. unfold openEffect. rewrite H. reflexivity. Qed.

Lemma flushEffects_open (d : Dialog) :
  open d = true -> flushEffects d = reclampEffect d.
Proof.
  intros H. unfold flushEffects. apply openEffect_open.
  destruct (reclampEffect_frame d) as [-> _]. assumption.
Qed.

(** After the effects have run once, a further pass changes nothing. *)
Lemma flushEffects_settled (d : Dialog) :
  flushEffects (flushEffects d) = flushEffects d.
Proof.
  destruct (open d) eqn:Ho.
  - rewrite (flushEffects_open d Ho).
    rewrite flushEffects_open
      by (destruct (reclampEffect_frame d) as [-> _]; assumption).
    apply reclampEffect_idem.
  - destruct (reclampEffect_frame d) as (Eo & _).
    assert (F : flushEffects d
                = setImageSize {| width := 0; height := 0 |} (reclampEffect d)).
    { unfold flushEffects, openEffect. rewrite Eo, Ho. reflexivity. }
    rewrite F. set (d' := setImageSize _ _).
    assert (U : reclampEffect d' = d').
    { apply reclampEffect_clamped. subst d'. cbn [imageSize setImageSize].
      rewrite clampOffset_unknown by reflexivity. apply offset_eq_refl. }
    unfold flushEffects. rewrite U. unfold openEffect.
    subst d'. cbn [open setImageSize]. rewrite Eo, Ho. reflexivity.
Qed.

Lemma step_press (d : Dialog) (press : PointerEvent) :
  open d = true -> primaryPress press = true ->
  open (step (PointerDown press) d) = true /\
  scale (step (PointerDown press) d) = scale d /\
  imageSize (step (PointerDown press) d) = imageSize d /\
  dragState (step (PointerDown press) d) = Some (snapshotOf press (offset d)) /\
  isDragging (step (PointerDown press) d) = true.
Proof.
  intros Ho Hp. unfold primaryPress in Hp. apply negb_true_iff in Hp.
  unfold step. cbn [handle]. rewrite Ho. unfold handlePointerDown. rewrite Hp.
  set (p := mkDialog _ _ _ _ _ _ _).
  assert (Hop : open p = true) by exact Ho.
  rewrite (flushEffects_open p Hop).
  destruct (reclampEffect_frame p) as (E1 & E2 & E3 & E4 & E5 & _).
  rewrite E1, E2, E3, E4, E5. repeat split; try reflexivity. exact Ho.
Qed.

Lemma step_move (d : Dialog) (move : PointerEvent) (current : DragSnapshot) :
  open d = true -> dragState d = Some current ->
  step (PointerMove move) d
  = onOffsetChange
      (clampOffset (imageSize d) (candidate current move) (scale d)) d.
Proof.
  intros Ho Hd. unfold step. cbn [handle]. rewrite Ho.
  unfold handlePointerMove. rewrite Hd. fold (candidate current move).
  set (m := onOffsetChange _ d).
  assert (Hom : open m = true) by exact Ho.
  rewrite (flushEffects_open m Hom).
  apply reclampEffect_clamped. subst m.
  cbn [imageSize offset scale onOffsetChange].
  rewrite clampOffset_twice. apply offset_eq_refl.
Qed.

Lemma step_move_idle (d : Dialog) (move : PointerEvent) :
  dragState d = None ->
  step (PointerMove move) d = flushEffects d.
Proof.
  intros Hd. unfold step. cbn [handle]. unfold handlePointerMove.
  rewrite Hd. destruct (open d); reflexivity.
Qed.

Lemma step_release
    (d : Dialog) (release : PointerEvent) (current : DragSnapshot) :
  open d = true -> dragState d = Some current ->
  offset_eq (clampOffset (imageSize d) (offset d) (scale d)) (offset d) ->
  step (PointerUp release) d
  = {| open := open d; scale := scale d; offset := offset d;
       imageSize := imageSize d; dragState := None;
       isDragging := false;
       pointerCapture :=
         releasePointerCapture (pointerId release) (pointerCapture d) |}.
Proof.
  intros Ho Hd Hc. unfold step. cbn [handle].
  unfold handlePointerUp. rewrite Hd, Ho.
  set (r := mkDialog _ _ _ _ _ _ _).
  assert (Hor : open r = true) by reflexivity.
  rewrite (flushEffects_open r Hor).
  apply reclampEffect_clamped. exact Hc.
Qed.

(** C8.  From offset [O] at scale [s], the sequence press at [P], move to
    [P + D], release leaves the shared offset equal to
    [clampOffset (O + D) s].  The press records [P] and [O]; the move writes
    the clamp of the recorded offset plus the pointer displacement; the
    release drops the record and leaves the offset as the move wrote it. *)
Theorem drag_press_move_release
    (d : Dialog) (press move release : PointerEvent) (D : Offset) :
  open d = true ->
  primaryPress press = true ->
  clientX move == clientX press + x D ->
  clientY move == clientY press + y D ->
  let O := offset d in
  let target :=
    clampOffset (imageSize d) {| x := x O + x D; y := y O + y D |} (scale d) in
  let pressed := step (PointerDown press) d in
  let moved := step (PointerMove move) pressed in
  let released := step (PointerUp release) moved in
  dragState pressed =
    Some {| drag_x := clientX press; drag_y := clientY press;
            drag_offsetX := x O; drag_offsetY := y O |} /\
  offset moved =
    clampOffset (imageSize d)
      {| x := x O + (clientX move - clientX press);
         y := y O + (clientY move - clientY press) |} (scale d) /\
  dragState released = None /\
  offset released = offset moved /\
  offset_eq (offset released) target.
Proof.
  intros Ho Hp Hx Hy O target pressed moved released.
  destruct (step_press d press Ho Hp) as (Hop & Hsp & Hip & Hdp & _).
  fold pressed in Hop, Hsp, Hip, Hdp.
  pose proof (step_move pressed move _ Hop Hdp) as Hm.
  fold moved in Hm. rewrite Hip, Hsp in Hm.
  assert (Hom : open moved = true) by (rewrite Hm; exact Hop).
  assert (Hdm : dragState moved = Some (snapshotOf press (offset d)))
    by (rewrite Hm; exact Hdp).
  assert (Hcm : offset_eq
                  (clampOffset (imageSize moved) (offset moved) (scale moved))
                  (offset moved)).
  { rewrite Hm. cbn [imageSize offset scale onOffsetChange].
    rewrite Hip, Hsp, clampOffset_twice. apply offset_eq_refl. }
  pose proof (step_release moved release _ Hom Hdm Hcm) as Hr.
  fold released in Hr.
  split; [exact Hdp|]. split; [rewrite Hm; reflexivity|].
  split; [rewrite Hr; reflexivity|]. split; [rewrite Hr; reflexivity|].
  rewrite Hr. cbn [offset]. rewrite Hm. cbn [offset onOffsetChange].
  apply clampOffset_compat.
  split; cbn [x y candidate snapshotOf drag_x drag_y drag_offsetX drag_offsetY];
    subst O; lra.
Qed.

Lemma drag_press_move_release_witness :
  let d := {| open := true; scale := 1; offset := mkOffset 0 0;
              imageSize := mkSize 240 480; dragState := None;
              isDragging := false; pointerCapture := [] |} in
  let press := mkPointer "mouse" 0 1 100 100 in
  let move := mkPointer "mouse" 0 1 130 150 in
  let release := mkPointer "mouse" 0 1 130 150 in
  let released :=
    step (PointerUp release)
      (step (PointerMove move) (step (PointerDown press) d)) in
  offset_eq (offset released)
            (clampOffset (mkSize 240 480) (mkOffset (0 + 30) (0 + 50)) 1)
  /\ dragState released = None.
Proof.
  intros d press move release released.
  destruct (drag_press_move_release d press move release (mkOffset 30 50))
    as (_ & _ & Hn & _ & Ht); try reflexivity.
  split; [exact Ht | exact Hn].
Defined.

(** ** Closing the dialog *)

Lemma step_close (d : Dialog) :
  step (SetOpen false) d
  = setImageSize {| width := 0; height := 0 |}
      (reclampEffect (setOpen false d)).
Proof.
  unfold step, flushEffects, openEffect. cbn [handle].
  destruct (reclampEffect_frame (setOpen false d)) as (Eo & _).
  rewrite Eo. reflexivity.
Qed.

(** What the reset effect does on close, for any state: the image dimensions
    return to unknown; the drag record, the dragging flag and the pointer
    capture are left as they were. *)
Lemma close_resets_imageSize_only (d : Dialog) :
  imageSize (step (SetOpen false) d) = {| width := 0; height := 0 |} /\
  dragState (step (SetOpen false) d) = dragState d /\
  isDragging (step (SetOpen false) d) = isDragging d /\
  pointerCapture (step (SetOpen false) d) = pointerCapture d.
Proof.
  rewrite step_close.
  cbn [imageSize dragState isDragging pointerCapture setImageSize].
  destruct (reclampEffect_frame (setOpen false d))
    as (_ & _ & _ & E4 & E5 & E6).
  rewrite E4, E5, E6. repeat split; reflexivity.
Qed.

(** A press replaces whatever record was there. *)
Lemma press_overwrites_snapshot (d : Dialog) (press : PointerEvent) :
  open d = true -> primaryPress press = true ->
  dragState (step (PointerDown press) d) = Some (snapshotOf press (offset d)).
Proof.
  intros Ho Hp. destruct (step_press d press Ho Hp) as (_ & _ & _ & E & _).
  exact E.
Qed.

(** C9.  The code at the failing input: a touch press at (10, 10) starts a
    drag, the dialog is closed while the drag is in progress and opened
    again, the image loads, and the mouse moves to (10, 60) with no press.
    The close reset the image dimensions but kept the drag record and the
    dragging flag; after the reopen the record is still there, and the
    unpressed move pans the image by the displacement from the old press. *)
Theorem close_during_drag_keeps_session :
  let press := mkPointer "touch" 0 7 10 10 in
  let hover := mkPointer "mouse" 0 1 10 60 in
  let closed := run [PointerDown press; SetOpen false] idleDialog in
  let reopened :=
    run [SetOpen true; ImageLoad {| width := 240; height := 480 |}] closed in
  let moved := step (PointerMove hover) reopened in
  imageSize closed = {| width := 0; height := 0 |} /\
  dragState closed = Some (mkDrag 10 10 0 0) /\
  isDragging closed = true /\
  dragState reopened = Some (mkDrag 10 10 0 0) /\
  isDragging reopened = true /\
  offset reopened = {| x := 0; y := 0 |} /\
  offset_eq (offset moved) {| x := 0; y := 50 |}.
Proof.
  cbv zeta. repeat split; vm_compute; reflexivity.
Qed.

(** ** The export geometry *)

Lemma falsy_compat (a b : Q) : a == b -> falsy a = falsy b.
Proof.
  intros E. destruct (falsy a) eqn:Ea, (falsy b) eqn:Eb; try reflexivity.
  - apply falsy_true_iff in Ea. apply falsy_false_iff in Eb. lra.
  - apply falsy_false_iff in Ea. apply falsy_true_iff in Eb. lra.
Qed.

Lemma baseScale_compat (a b : Size) :
  width a == width b -> height a == height b ->
  baseScale a == baseScale b.
Proof.
  intros Hw Hh. unfold baseScale, baseScaleOf, unknownSize.
  rewrite (falsy_compat _ _ Hw), (falsy_compat _ _ Hh).
  destruct (falsy (width b) || falsy (height b)); [reflexivity|].
  rewrite Hw, Hh. reflexivity.
Qed.

Lemma sourceRect_unfold (size : Size) (s : Q) (o : Offset) :
  sourceRect size s o =
  if falsy (displayScale size s) then None
  else Some {| sourceX := (0 - imageLeft size s o) / displayScale size s;
               sourceY := (0 - imageTop size s o) / displayScale size s;
               sourceSize := CROP_SIZE / displayScale size s |}.
Proof.
  unfold sourceRect, jsDiv, imageLeft, imageTop, displayWidth, displayHeight,
    displayScale.
  destruct (falsy (baseScale size * s)); reflexivity.
Qed.

Lemma sourceRect_compat (size size' : Size) (s s' : Q) (o o' : Offset) :
  width size == width size' -> height size == height size' ->
  s == s' -> offset_eq o o' ->
  rect_eq (sourceRect size s o) (sourceRect size' s' o').
Proof.
  intros Hw Hh Hs [Hx Hy].
  pose proof (baseScale_compat size size' Hw Hh) as Hb.
  assert (Hd : displayScale size s == displayScale size' s')
    by (unfold displayScale; rewrite Hb, Hs; reflexivity).
  rewrite !sourceRect_unfold. rewrite (falsy_compat _ _ Hd).
  destruct (falsy (displayScale size' s')) eqn:E; [exact I|].
  apply falsy_false_iff in E.
  unfold rect_eq, imageLeft, imageTop, displayWidth, displayHeight.
  cbn [sourceX sourceY sourceSize].
  rewrite Hd, Hw, Hh, Hx, Hy. repeat split; reflexivity.
Qed.

(** C5.  The source rectangle of the export is the analytic derivation of
    the specification at the crop frame (origin 0, centre [CROP_SIZE / 2],
    side [CROP_SIZE]); it is a square; and numerically identical inputs give
    numerically identical coordinates. *)
Theorem sourceRect_analytic :
  (forall (size : Size) (s : Q) (o : Offset),
     sourceRect size s o
     = analyticSourceRect cropFrame size (baseScale size) s o) /\
  (forall (size : Size) (s : Q) (o : Offset) (call : DrawImage),
     In call (drawn (paint (sourceRect size s o) outputCanvas)) ->
     sWidth call = sHeight call) /\
  (forall (size size' : Size) (s s' : Q) (o o' : Offset),
     width size == width size' -> height size == height size' ->
     s == s' -> offset_eq o o' ->
     rect_eq (sourceRect size s o) (sourceRect size' s' o')).
Proof.
  split; [|split].
  - intros size s o. rewrite sourceRect_unfold.
    unfold analyticSourceRect, displayScale, imageLeft, imageTop,
      displayWidth, displayHeight, displayScale.
    cbn [cropFrame frameOrigin frameCenter frameSize x y width height].
    reflexivity.
  - intros size s o call Hin.
    destruct (sourceRect size s o) as [r|]; cbn in Hin.
    + destruct Hin as [<- | []]. reflexivity.
    + destruct Hin.
  - exact sourceRect_compat.
Qed.

(** The scenario of section 8.6: 1000 x 600, scale 1.5, offset (10, -5). *)
Lemma sourceRect_analytic_witness :
  rect_eq (sourceRect (mkSize 1000 600) (3 # 2) (mkOffset 10 (-5)))
          (sourceRect (mkSize 1000 600) (15 # 10) (mkOffset (20 # 2) (-5)))
  /\ rect_eq (sourceRect (mkSize 1000 600) (3 # 2) (mkOffset 10 (-5)))
             (Some (mkRect (850 # 3) (325 # 3) 400)).
Proof.
  split.
  - apply (proj2 (proj2 sourceRect_analytic)); cbn [width height];
      try reflexivity. split; reflexivity.
  - vm_compute. repeat split.
Defined.

(** ** The sink of the export *)

Section ExportSink.
Context {RenderingContext Blob : Type}.
Implicit Types (dom : @Dom RenderingContext Blob) (d : Dialog).

(** The calls of the sink and the completion of [handleApply], path by
    path. *)
Lemma handleApply_paths dom d :
  handleApply dom d =
  match imageRef_current dom, getContext_2d dom with
  | None, _ | Some _, None =>
      {| outcome := Normal tt; onApply_calls := [] |}
  | Some ImageBroken, Some _ =>
      {| outcome := Throw "InvalidStateError"; onApply_calls := [] |}
  | Some ImageNotReady, Some _ =>
      match toBlob dom outputCanvas with
      | Some blob => {| outcome := Normal tt; onApply_calls := [blob] |}
      | None => {| outcome := Normal tt; onApply_calls := [] |}
      end
  | Some ImageUsable, Some _ =>
      match toBlob dom (exportedCanvas d) with
      | Some blob => {| outcome := Normal tt; onApply_calls := [blob] |}
      | None => {| outcome := Normal tt; onApply_calls := [] |}
      end
  end.
Proof.
  unfold handleApply, drawImage, exportedCanvas.
  destruct (imageRef_current dom) as [[| |]|], (getContext_2d dom);
    reflexivity.
Qed.
End ExportSink.

(** C7.  The code at the failing input: the image element is mounted but
    its request failed (no load event, so the cached dimensions are still
    zero), a drawing context is obtained and the encoder would yield a
    result.  [handleApply] passes its guards, [drawImage] throws an
    [InvalidStateError], the promise of the handler rejects and the sink is
    not called.  Beside it, the paths on which the claim holds: no image
    element, no context and no encoded result complete normally without a
    call, and a usable image with a context and a result gives one call. *)
Theorem handleApply_rejects_broken_image :
  let d := mkDialog true 1 (mkOffset 0 0) (mkSize 0 0) None false [] in
  let encode := fun canvas : Canvas => Some (drawn canvas) in
  let silent := fun _ : Canvas => @None (list DrawImage) in
  handleApply (mkDom (Some ImageBroken) (Some tt) encode) d
    = {| outcome := Throw "InvalidStateError"; onApply_calls := [] |} /\
  handleApply (mkDom None (Some tt) encode) d
    = {| outcome := Normal tt; onApply_calls := [] |} /\
  handleApply (mkDom (Some ImageUsable) (@None unit) encode) d
    = {| outcome := Normal tt; onApply_calls := [] |} /\
  handleApply (mkDom (Some ImageUsable) (Some tt) silent) d
    = {| outcome := Normal tt; onApply_calls := [] |} /\
  handleApply (mkDom (Some ImageUsable) (Some tt) encode) d
    = {| outcome := Normal tt;
         onApply_calls := [drawn (exportedCanvas d)] |}.
Proof. cbv zeta. repeat split. Qed.

(** * Further properties of the code *)

(** ** The transform engine *)

Lemma baseScale_positive (size : Size) :
  0 <= width size -> 0 <= height size -> 0 < baseScale size.
Proof.
  intros Hw Hh. unfold baseScale, baseScaleOf.
  destruct (unknownSize size) eqn:E; [lra|].
  assert (Nw : ~ width size == 0 /\ ~ height size == 0).
  { split; intros C; enough (unknownSize size = true) by congruence;
      apply unknownSize_true_iff; tauto. }
  destruct Nw as [Nw Nh].
  assert (Pw : 0 < width size) by lra.
  apply Qlt_le_trans with (CROP_SIZE / width size); [|apply Q.le_max_l].
  apply Qlt_shift_div_l; [exact Pw | unfold CROP_SIZE; lra].
Qed.

Lemma clamp_axis_lipschitz (bound v v' : Q) :
  v <= v' ->
  0 <= Qmin bound (Qmax (- bound) v') - Qmin bound (Qmax (- bound) v)
    <= v' - v.
Proof. intros. minmax_lra. Qed.

Lemma clamp_axis_odd (bound v : Q) :
  0 <= bound ->
  Qmin bound (Qmax (- bound) (- v)) == - Qmin bound (Qmax (- bound) v).
Proof. intros. minmax_lra. Qed.

Lemma clamp_axis_widen (bound bound' v : Q) :
  0 <= bound -> bound <= bound' ->
  Qmin bound (Qmax (- bound) v) == v ->
  Qmin bound' (Qmax (- bound') v) == v.
Proof. intros. minmax_lra. Qed.

Lemma clamp_axis_zero (bound : Q) :
  0 <= bound -> Qmin bound (Qmax (- bound) 0) == 0.
Proof. intros. minmax_lra. Qed.

Lemma panBound_monotone (d d' : Q) :
  d <= d' ->
  Qmax 0 ((d - CROP_SIZE) / 2) <= Qmax 0 ((d' - CROP_SIZE) / 2).
Proof. intros. unfold CROP_SIZE. minmax_lra. Qed.

(** The clamp in terms of the display size. *)
Lemma clampOffset_display (size : Size) (o : Offset) (s : Q) :
  unknownSize size = false ->
  clampOffset size o s =
  {| x := Qmin (Qmax 0 ((displayWidth size s - CROP_SIZE) / 2))
               (Qmax (- Qmax 0 ((displayWidth size s - CROP_SIZE) / 2)) (x o));
     y := Qmin (Qmax 0 ((displayHeight size s - CROP_SIZE) / 2))
               (Qmax (- Qmax 0 ((displayHeight size s - CROP_SIZE) / 2)) (y o))
  |}.
Proof. intros E. rewrite clampOffset_known by exact E. reflexivity. Qed.

(** X3.  The centred position is never moved: for every image size (known
    or not) and every scale, also one outside [[1, 3]], [clampOffset] maps
    the zero offset to the zero offset. *)
Theorem clampOffset_keeps_centre (size : Size) (s : Q) :
  offset_eq (clampOffset size {| x := 0; y := 0 |} s) {| x := 0; y := 0 |}.
Proof.
  destruct (unknownSize size) eqn:E.
  - rewrite clampOffset_unknown by exact E. apply offset_eq_refl.
  - rewrite clampOffset_display by exact E.
    split; cbn [x y]; apply clamp_axis_zero, panBound_nonneg.
Qed.

(** X4.  [clampOffset] is monotone and non-expansive on each axis: two
    candidates in a given order are clamped to offsets in the same order and
    no further apart. *)
Theorem clampOffset_monotone_nonexpansive (size : Size) (a b : Offset) (s : Q) :
  (x a <= x b ->
     0 <= x (clampOffset size b s) - x (clampOffset size a s) <= x b - x a) /\
  (y a <= y b ->
     0 <= y (clampOffset size b s) - y (clampOffset size a s) <= y b - y a).
Proof.
  destruct (unknownSize size) eqn:E.
  - rewrite !clampOffset_unknown by exact E. split; intros; lra.
  - rewrite !clampOffset_display by exact E. cbn [x y].
    split; intros; apply clamp_axis_lipschitz; assumption.
Qed.

Lemma clampOffset_monotone_nonexpansive_witness :
  0 <= x (clampOffset (mkSize 1000 600) (mkOffset 90 0) 1)
       - x (clampOffset (mkSize 1000 600) (mkOffset 70 0) 1) <= 90 - 70.
Proof.
  apply (proj1 (clampOffset_monotone_nonexpansive (mkSize 1000 600)
                  (mkOffset 70 0) (mkOffset 90 0) 1)).
  cbn [x]. lra.
Defined.

(** X5.  [clampOffset] is symmetric about the centre: the clamp of the
    opposite candidate is the opposite of the clamp. *)
Theorem clampOffset_symmetric (size : Size) (o : Offset) (s : Q) :
  offset_eq (clampOffset size {| x := - x o; y := - y o |} s)
            {| x := - x (clampOffset size o s);
               y := - y (clampOffset size o s) |}.
Proof.
  destruct (unknownSize size) eqn:E.
  - rewrite !clampOffset_unknown by exact E. apply offset_eq_refl.
  - rewrite !clampOffset_display by exact E.
    split; cbn [x y]; apply clamp_axis_odd, panBound_nonneg.
Qed.

Lemma displayWidth_monotone (size : Size) (s s' : Q) :
  0 <= width size -> 0 <= height size -> s <= s' ->
  displayWidth size s <= displayWidth size s' /\
  displayHeight size s <= displayHeight size s'.
Proof.
  intros Hw Hh Hs. pose proof (baseScale_positive size Hw Hh) as Pb.
  unfold displayWidth, displayHeight, displayScale.
  assert (Bs : baseScale size * s <= baseScale size * s')
    by (apply Qmult_le_l; assumption).
  split.
  - destruct (Qle_lt_or_eq _ _ Hw) as [P | Z].
    + apply Qmult_le_l; assumption.
    + rewrite <- Z. lra.
  - destruct (Qle_lt_or_eq _ _ Hh) as [P | Z].
    + apply Qmult_le_l; assumption.
    + rewrite <- Z. lra.
Qed.

(** X6.  Zooming in never moves the image: an offset that [clampOffset]
    leaves in place at scale [s] is left in place at every larger scale, so
    the re-clamp effect writes nothing after the scale prop grows. *)
Theorem zoom_in_keeps_offset (size : Size) (o : Offset) (s s' : Q) :
  0 <= width size -> 0 <= height size -> s <= s' ->
  offset_eq (clampOffset size o s) o ->
  offset_eq (clampOffset size o s') o /\
  (forall d : Dialog,
     imageSize d = size -> offset d = o -> scale d = s ->
     reclampEffect (setScale s' d) = setScale s' d).
Proof.
  intros Hw Hh Hs Fix.
  assert (K : offset_eq (clampOffset size o s') o).
  { destruct (unknownSize size) eqn:E.
    - rewrite clampOffset_unknown by exact E. apply offset_eq_refl.
    - rewrite clampOffset_display in Fix |- * by exact E.
      destruct Fix as [Fx Fy]. cbn [x y] in Fx, Fy.
      destruct (displayWidth_monotone size s s' Hw Hh Hs) as [Mw Mh].
      split; cbn [x y].
      + eapply clamp_axis_widen; [apply panBound_nonneg | | exact Fx].
        apply panBound_monotone. exact Mw.
      + eapply clamp_axis_widen; [apply panBound_nonneg | | exact Fy].
        apply panBound_monotone. exact Mh. }
  split; [exact K|].
  intros d <- <- <-. apply reclampEffect_clamped. exact K.
Qed.

Lemma zoom_in_keeps_offset_witness :
  offset_eq (clampOffset (mkSize 240 480) (mkOffset 0 100) 2) (mkOffset 0 100).
Proof.
  apply (zoom_in_keeps_offset (mkSize 240 480) (mkOffset 0 100) 1 2);
    cbn [width height]; try lra.
  split; vm_compute; reflexivity.
Defined.

(** ** The state machine *)

Lemma flushEffects_frame (d : Dialog) :
  open (flushEffects d) = open d /\
  scale (flushEffects d) = scale d /\
  dragState (flushEffects d) = dragState d /\
  isDragging (flushEffects d) = isDragging d /\
  pointerCapture (flushEffects d) = pointerCapture d.
Proof.
  destruct (reclampEffect_frame d) as (E1 & E2 & _ & E4 & E5 & E6).
  unfold flushEffects, openEffect.
  destruct (negb (open (reclampEffect d)));
    cbn [open scale dragState isDragging pointerCapture setImageSize];
    repeat split; assumption.
Qed.

Lemma flushEffects_clamped (d : Dialog) :
  offset_eq
    (clampOffset (imageSize (flushEffects d)) (offset (flushEffects d))
       (scale (flushEffects d)))
    (offset (flushEffects d)).
Proof.
  unfold flushEffects, openEffect.
  destruct (negb (open (reclampEffect d))).
  - cbn [imageSize offset scale setImageSize].
    rewrite clampOffset_unknown by reflexivity. apply offset_eq_refl.
  - unfold reclampEffect. destruct (offset_eqb _ _) eqn:E.
    + apply offset_eqb_iff. exact E.
    + cbn [imageSize offset scale onOffsetChange].
      rewrite clampOffset_twice. apply offset_eq_refl.
Qed.

Lemma handle_scale (ev : Event) (d : Dialog) : scale (handle ev d) = scale d.
Proof.
  destruct ev as [e | e | e | e | n | b]; cbn [handle];
    try (destruct (open d); [|reflexivity]).
  - unfold handlePointerDown. destruct (_ && _); reflexivity.
  - unfold handlePointerMove. destruct (dragState d); reflexivity.
  - unfold handlePointerUp. destruct (dragState d); reflexivity.
  - unfold handlePointerUp. destruct (dragState d); reflexivity.
  - reflexivity.
  - reflexivity.
Qed.

(** X10.  No pointer event, image load or change of [open] touches the
    zoom: the scale after any sequence of these events is the scale before
    it. *)
Theorem events_keep_scale (evs : list Event) (d : Dialog) :
  scale (run evs d) = scale d.
Proof.
  revert d. induction evs as [|ev evs IH]; intros d.
  - reflexivity.
  - cbn [run fold_left]. fold (run evs (step ev d)). rewrite IH.
    unfold step. destruct (flushEffects_frame (handle ev d)) as (_ & E & _).
    rewrite E. apply handle_scale.
Qed.

Lemma step_inert (ev : Event) (d : Dialog) :
  flushEffects d = d -> dragState d = None -> inert ev = true ->
  step ev d = d.
Proof.
  intros S N I. unfold step.
  replace (handle ev d) with d; [exact S|].
  destruct ev as [e | e | e | e | n | b]; cbn [handle inert] in *;
    try discriminate; destruct (open d); try reflexivity.
  - unfold handlePointerDown. unfold primaryPress in I.
    rewrite negb_involutive in I. rewrite I. reflexivity.
  - unfold handlePointerMove. rewrite N. reflexivity.
  - unfold handlePointerUp. rewrite N. reflexivity.
  - unfold handlePointerUp. rewrite N. reflexivity.
Qed.

(** X11.  Without an accepted press nothing moves.  In a settled state with
    no drag in progress, any sequence of moves, releases, leaves and presses
    of a non-primary mouse button leaves the whole state, and so the offset,
    as it was. *)
Theorem idle_pointer_events_ignored (evs : list Event) (d : Dialog) :
  flushEffects d = d -> dragState d = None ->
  forallb inert evs = true ->
  run evs d = d.
Proof.
  intros S N. induction evs as [|ev evs IH]; intros I.
  - reflexivity.
  - cbn [forallb] in I. apply andb_true_iff in I. destruct I as [I1 I2].
    cbn [run fold_left]. rewrite (step_inert ev d S N I1). apply IH, I2.
Qed.

Lemma idle_pointer_events_ignored_witness :
  run [PointerDown (mkPointer "mouse" 2 1 10 10);
       PointerMove (mkPointer "mouse" 2 1 90 95);
       PointerUp (mkPointer "mouse" 2 1 90 95)] idleDialog
  = idleDialog.
Proof. apply idle_pointer_events_ignored; reflexivity. Defined.

(** ** Drags *)

Lemma run_cons (ev : Event) (evs : list Event) (d : Dialog) :
  run (ev :: evs) d = run evs (step ev d).
Proof. reflexivity. Qed.

Lemma run_app (evs evs' : list Event) (d : Dialog) :
  run (evs ++ evs') d = run evs' (run evs d).
Proof. unfold run. apply fold_left_app. Qed.

Lemma run_moves (ms : list PointerEvent) (m : PointerEvent)
    (p : Dialog) (current : DragSnapshot) :
  open p = true -> dragState p = Some current ->
  run (map PointerMove (ms ++ [m])) p
  = onOffsetChange
      (clampOffset (imageSize p) (candidate current m) (scale p)) p.
Proof.
  revert p. induction ms as [|a ms IH]; intros p Ho Hd.
  - cbn [app map]. rewrite run_cons. apply step_move; assumption.
  - cbn [app map]. rewrite run_cons.
    rewrite (step_move p a current Ho Hd).
    rewrite IH by (cbn [open dragState onOffsetChange]; assumption).
    reflexivity.
Qed.

(** X12.  A drag does not depend on the path of the pointer.  After an
    accepted press, however many moves come first, the offset after the last
    move is the clamp of the offset at press time plus the displacement from
    the press position to that last position; intermediate positions, and
    the clamping they met, leave no trace. *)
Theorem drag_path_independent
    (d : Dialog) (press : PointerEvent) (ms : list PointerEvent)
    (m : PointerEvent) :
  open d = true -> primaryPress press = true ->
  offset (run (PointerDown press :: map PointerMove (ms ++ [m])) d)
  = clampOffset (imageSize d)
      {| x := x (offset d) + (clientX m - clientX press);
         y := y (offset d) + (clientY m - clientY press) |}
      (scale d).
Proof.
  intros Ho Hp.
  destruct (step_press d press Ho Hp) as (Hop & Hsp & Hip & Hdp & _).
  rewrite run_cons.
  rewrite (run_moves ms m _ _ Hop Hdp).
  cbn [offset onOffsetChange]. rewrite Hip, Hsp. reflexivity.
Qed.

Lemma drag_path_independent_witness :
  offset
    (run (PointerDown (mkPointer "mouse" 0 1 100 100)
          :: map PointerMove
               ([mkPointer "mouse" 0 1 100 900; mkPointer "mouse" 0 1 (-50) 3]
                ++ [mkPointer "mouse" 0 1 130 150]))
       idleDialog)
  = clampOffset (mkSize 240 480)
      {| x := 0 + (130 - 100); y := 0 + (150 - 100) |} 1.
Proof.
  apply (drag_path_independent idleDialog (mkPointer "mouse" 0 1 100 100));
    reflexivity.
Defined.

(** X14.  Decoding the image clamps what was stored.  When the image of an
    open dialog loads, the cached size becomes the natural size and the
    stored offset becomes its clamp for that size and the current scale. *)
Theorem image_load_reclamps (natural : Size) (d : Dialog) :
  open d = true ->
  let d' := step (ImageLoad natural) d in
  imageSize d' = natural /\
  offset_eq (offset d') (clampOffset natural (offset d) (scale d)).
Proof.
  intros Ho d'. subst d'. unfold step. cbn [handle]. rewrite Ho.
  unfold handleImageLoad.
  replace {| width := width natural; height := height natural |}
    with natural by (destruct natural; reflexivity).
  rewrite flushEffects_open by exact Ho.
  destruct (reclampEffect_frame (setImageSize natural d)) as (_ & _ & E & _).
  split; [rewrite E; reflexivity|].
  apply (reclampEffect_offset (setImageSize natural d)).
Qed.

Lemma image_load_reclamps_witness :
  let d' := step (ImageLoad (mkSize 240 480))
              (mkDialog true 1 (mkOffset 300 300) (mkSize 0 0) None false [])
  in
  imageSize d' = mkSize 240 480 /\
  offset_eq (offset d')
            (clampOffset (mkSize 240 480) (mkOffset 300 300) 1).
Proof.
  apply (image_load_reclamps (mkSize 240 480)). reflexivity.
Defined.

(** X15.  Until the image is decoded a drag is not limited.  With a cached
    dimension still zero, an accepted press and a move write the offset at
    press time plus the pointer displacement as it is, however far from the
    frame that carries the image. *)
Theorem undecoded_drag_unclamped
    (d : Dialog) (press move : PointerEvent) :
  open d = true -> primaryPress press = true ->
  width (imageSize d) == 0 \/ height (imageSize d) == 0 ->
  offset (run [PointerDown press; PointerMove move] d)
  = {| x := x (offset d) + (clientX move - clientX press);
       y := y (offset d) + (clientY move - clientY press) |}.
Proof.
  intros Ho Hp U. apply unknownSize_true_iff in U.
  destruct (step_press d press Ho Hp) as (Hop & Hsp & Hip & Hdp & _).
  rewrite !run_cons. cbn [run fold_left].
  rewrite (step_move _ move _ Hop Hdp). cbn [offset onOffsetChange].
  rewrite Hip. apply clampOffset_unknown. exact U.
Qed.

Lemma undecoded_drag_unclamped_witness :
  offset
    (run [PointerDown (mkPointer "pen" 0 3 0 0);
          PointerMove (mkPointer "pen" 0 3 5000 (-7000))]
       (mkDialog true 1 (mkOffset 0 0) (mkSize 0 0) None false []))
  = {| x := 0 + (5000 - 0); y := 0 + (-7000 - 0) |}.
Proof.
  apply (undecoded_drag_unclamped
           (mkDialog true 1 (mkOffset 0 0) (mkSize 0 0) None false []));
    try reflexivity.
  left. reflexivity.
Defined.

(** ** Zoom buttons *)



(** ** Effects and presses *)

(** X17.  The effects settle in one pass.  The re-clamp effect re-triggers
    itself through [onOffsetChange]; after any event and one pass of the
    effects, running the re-clamp effect, or both effects, again changes
    nothing, so the render loop stops. *)
Theorem effects_settle_in_one_pass (ev : Event) (d : Dialog) :
  reclampEffect (step ev d) = step ev d /\
  flushEffects (step ev d) = step ev d.
Proof.
  unfold step. split.
  - apply reclampEffect_clamped, flushEffects_clamped.
  - apply flushEffects_settled.
Qed.

(** X18.  A second press during a drag restarts it.  An accepted press
    replaces the drag record, also when a drag is in progress: the new
    record holds the new press position and the offset of that moment, and
    the next move is measured from them. *)
Theorem second_press_restarts_drag
    (d : Dialog) (old : DragSnapshot) (press move : PointerEvent) :
  open d = true -> dragState d = Some old -> primaryPress press = true ->
  dragState (step (PointerDown press) d)
    = Some {| drag_x := clientX press; drag_y := clientY press;
              drag_offsetX := x (offset d); drag_offsetY := y (offset d) |} /\
  offset (run [PointerDown press; PointerMove move] d)
    = clampOffset (imageSize d)
        {| x := x (offset d) + (clientX move - clientX press);
           y := y (offset d) + (clientY move - clientY press) |}
        (scale d).
Proof.
  intros Ho _ Hp.
  destruct (step_press d press Ho Hp) as (Hop & Hsp & Hip & Hdp & _).
  split; [exact Hdp|].
  rewrite !run_cons. cbn [run fold_left].
  rewrite (step_move _ move _ Hop Hdp). cbn [offset onOffsetChange].
  rewrite Hip, Hsp. reflexivity.
Qed.

Lemma second_press_restarts_drag_witness :
  let d := mkDialog true 1 (mkOffset 0 40) (mkSize 240 480)
             (Some (mkDrag 10 10 0 0)) true [7%Z] in
  dragState (step (PointerDown (mkPointer "touch" 0 8 200 200)) d)
  = Some (mkDrag 200 200 0 40).
Proof.
  intros d.
  apply (proj1 (second_press_restarts_drag d (mkDrag 10 10 0 0)
                  (mkPointer "touch" 0 8 200 200)
                  (mkPointer "touch" 0 8 200 200)
                  eq_refl eq_refl eq_refl)).
Defined.

(** ** The export rectangle *)




(** ** The settings panel *)

(** X23.  The "Clear preview" button is rendered exactly when the avatar
    slot shows an image rather than the placeholder icon, and an image that
    is shown never has an empty source. *)
Theorem remove_button_iff_image_shown
    (avatarPreview userAvatarSrc : string) (avatarRemovePending : bool) :
  (removeButtonShown avatarPreview userAvatarSrc avatarRemovePending = true
   <-> avatarSlot avatarPreview userAvatarSrc avatarRemovePending
       <> Placeholder) /\
  (forall src,
     avatarSlot avatarPreview userAvatarSrc avatarRemovePending
       = PreviewImage src \/
     avatarSlot avatarPreview userAvatarSrc avatarRemovePending
       = StoredImage src ->
     truthy src = true).
Proof.
  unfold removeButtonShown, avatarSlot.
  destruct (truthy avatarPreview) eqn:P; cbn [orb].
  - split; [split; [discriminate | reflexivity]|].
    intros src [H | H]; inversion H; subst; exact P.
  - destruct (negb avatarRemovePending && truthy userAvatarSrc) eqn:S.
    + split; [split; [discriminate | reflexivity]|].
      intros src [H | H]; inversion H; subst.
      apply andb_true_iff in S. apply S.
    + split; [split; [discriminate | congruence]|].
      intros src [H | H]; discriminate.
Qed.

Lemma remove_button_iff_image_shown_witness :
  truthy "blob:preview"%string = true.
Proof.
  apply (proj2 (remove_button_iff_image_shown
                  "blob:preview"%string "/a.png"%string true)
           "blob:preview"%string).
  left. reflexivity.
Defined.

(** X24.  Whenever the Upload button is enabled the "Edit crop" button is
    rendered; with neither a chosen file nor a preview the first is disabled
    and the second absent. *)
Theorem upload_enabled_shows_edit_crop
    (File : Type) (avatarFile : option File) (avatarPreview : string) :
  (uploadDisabled avatarFile = false ->
   editCropShown avatarFile avatarPreview = true) /\
  (editCropShown avatarFile avatarPreview = false ->
   uploadDisabled avatarFile = true /\ truthy avatarPreview = false).
Proof.
  unfold uploadDisabled, editCropShown.
  destruct avatarFile; cbn [orb]; split; intros H; try discriminate;
    try reflexivity; split; [reflexivity | exact H].
Qed.

Lemma upload_enabled_shows_edit_crop_witness :
  editCropShown (Some tt) EmptyString = true.
Proof.
  apply (proj1 (upload_enabled_shows_edit_crop unit (Some tt) EmptyString)).
  reflexivity.
Defined.





(** ** Invariants of the state machine *)

(** X8.  The stored offset is clamped after every event.  Whatever the
    state before and whatever the event, once the handler and the effects
    have run the stored offset is one that [clampOffset] leaves in place,
    and with known dimensions it lies within the pan bounds that
    [clampOffset] computes for the stored size and scale. *)
Theorem step_keeps_offset_clamped (ev : Event) (d : Dialog) :
  let d' := step ev d in
  offset_eq (clampOffset (imageSize d') (offset d') (scale d')) (offset d') /\
  (unknownSize (imageSize d') = false ->
   let maxX :=
     Qmax 0 ((displayWidth (imageSize d') (scale d') - CROP_SIZE) / 2) in
   let maxY :=
     Qmax 0 ((displayHeight (imageSize d') (scale d') - CROP_SIZE) / 2) in
   - maxX <= x (offset d') <= maxX /\ - maxY <= y (offset d') <= maxY).
Proof.
  intros d'. subst d'. unfold step.
  pose proof (flushEffects_clamped (handle ev d)) as Fix.
  set (d' := flushEffects (handle ev d)) in *. clearbody d'.
  split; [exact Fix|]. intros E.
  pose proof (clampOffset_x_bounds (imageSize d') (offset d') (scale d') E)
    as Bx.
  pose proof (clampOffset_y_bounds (imageSize d') (offset d') (scale d') E)
    as By.
  destruct Fix as [Fx Fy]. cbv zeta in *.
  rewrite Fx in Bx. rewrite Fy in By. split; assumption.
Qed.

Lemma step_keeps_offset_clamped_witness :
  let d' := step (ImageLoad (mkSize 1000 600))
              (mkDialog true (3 # 2) (mkOffset 900 (-900)) (mkSize 0 0)
                 None false []) in
  let maxX :=
    Qmax 0 ((displayWidth (imageSize d') (scale d') - CROP_SIZE) / 2) in
  let maxY :=
    Qmax 0 ((displayHeight (imageSize d') (scale d') - CROP_SIZE) / 2) in
  - maxX <= x (offset d') <= maxX /\ - maxY <= y (offset d') <= maxY.
Proof.
  apply (proj2 (step_keeps_offset_clamped (ImageLoad (mkSize 1000 600))
    (mkDialog true (3 # 2) (mkOffset 900 (-900)) (mkSize 0 0) None false []))).
  reflexivity.
Defined.

Lemma handle_dragFlagAgrees (ev : Event) (d : Dialog) :
  dragFlagAgrees d = true -> dragFlagAgrees (handle ev d) = true.
Proof.
  intros C. destruct ev as [e | e | e | e | n | b]; cbn [handle];
    try (destruct (open d); [|exact C]).
  - unfold handlePointerDown.
    destruct (_ && _); [exact C | reflexivity].
  - unfold handlePointerMove. destruct (dragState d) eqn:E; [|exact C].
    unfold dragFlagAgrees in *.
    cbn [dragState isDragging onOffsetChange]. rewrite E in *. exact C.
  - unfold handlePointerUp. destruct (dragState d); [reflexivity | exact C].
  - unfold handlePointerUp. destruct (dragState d); [reflexivity | exact C].
  - exact C.
  - exact C.
Qed.

Lemma step_dragFlagAgrees (ev : Event) (d : Dialog) :
  dragFlagAgrees d = true -> dragFlagAgrees (step ev d) = true.
Proof.
  intros C. apply (handle_dragFlagAgrees ev) in C. unfold step.
  destruct (flushEffects_frame (handle ev d)) as (_ & _ & E3 & E4 & _).
  unfold dragFlagAgrees in *. rewrite E3, E4. exact C.
Qed.

Lemma release_keeps_other (id released : Z) (captured : list Z) :
  In id captured -> id <> released ->
  In id (releasePointerCapture released captured).
Proof.
  intros Hin Hne. unfold releasePointerCapture. apply filter_In.
  split; [exact Hin|]. apply negb_true_iff. apply Z.eqb_neq. exact Hne.
Qed.

(** X9.  The dragging flag follows the drag record, and a release frees
    only its own pointer.  From a state in which [isDragging] is set exactly
    when a drag record exists, every sequence of events leads to such a
    state; and a pointer captured before a release by another pointer is
    still captured after it, also when that release ends the drag. *)
Theorem dragging_flag_agrees (evs : list Event) (d : Dialog) :
  (dragFlagAgrees d = true -> dragFlagAgrees (run evs d) = true) /\
  (forall (event : PointerEvent) (id : Z),
     In id (pointerCapture d) -> id <> pointerId event ->
     In id (pointerCapture (step (PointerUp event) d))).
Proof.
  split.
  - revert d. induction evs as [|ev evs IH]; intros d C.
    + exact C.
    + cbn [run fold_left]. apply IH, step_dragFlagAgrees, C.
  - intros event id Hin Hne. unfold step.
    destruct (flushEffects_frame (handle (PointerUp event) d))
      as (_ & _ & _ & _ & E).
    rewrite E. cbn [handle]. destruct (open d); [|exact Hin].
    unfold handlePointerUp. destruct (dragState d); [|exact Hin].
    cbn [pointerCapture]. apply release_keeps_other; assumption.
Qed.

Lemma dragging_flag_agrees_witness :
  let evs := [PointerDown (mkPointer "touch" 0 7 10 10);
              PointerDown (mkPointer "touch" 0 8 50 50);
              PointerUp (mkPointer "touch" 0 8 50 50)] in
  dragFlagAgrees (run evs idleDialog) = true /\
  In 7%Z (pointerCapture
            (step (PointerUp (mkPointer "touch" 0 8 50 50))
               (run [PointerDown (mkPointer "touch" 0 7 10 10);
                     PointerDown (mkPointer "touch" 0 8 50 50)] idleDialog))).
Proof.
  intros evs. split.
  - apply (proj1 (dragging_flag_agrees evs idleDialog)). reflexivity.
  - apply (proj2 (dragging_flag_agrees []
             (run [PointerDown (mkPointer "touch" 0 7 10 10);
                   PointerDown (mkPointer "touch" 0 8 50 50)] idleDialog))).
    + vm_compute. tauto.
    + cbn [pointerId]. lia.
Defined.

(** * The geometry in binary64 *)

(** ** The rounding *)

Lemma roundEven_nearest (q : Q) :
  - (1 # 2) <= inject_Z (roundEven q) - q <= 1 # 2.
Proof.
  unfold roundEven.
  pose proof (Qfloor_le q) as L. pose proof (Qlt_floor q) as U.
  rewrite inject_Z_plus in U. change (inject_Z 1) with 1 in U.
  destruct (Qcompare_spec (q - inject_Z (Qfloor q)) (1 # 2)) as [E | E | E].
  - destruct (Z.even (Qfloor q)).
    + lra.
    + rewrite inject_Z_plus. change (inject_Z 1) with 1. lra.
  - lra.
  - rewrite inject_Z_plus. change (inject_Z 1) with 1. lra.
Qed.

Lemma two_power_pos (e : Z) : 0 < 2 ^ e.
Proof. apply Qpower_0_lt. reflexivity. Qed.

(** The scaled value has at least 53 bits before the point. *)
Lemma binade_lower (q : Q) : 0 < q -> 2 ^ (binade q + 52) <= q.
Proof.
  intros Pq. unfold binade.
  set (a := Z.log2 (Qnum q)). set (b := Z.log2 (Zpos (Qden q))).
  destruct (Qle_bool (2 ^ (a - b - 53 + 53)) q) eqn:E.
  - apply Qle_bool_iff in E.
    replace (a - b - 53 + 1 + 52)%Z with (a - b - 53 + 53)%Z by lia. exact E.
  - clear E. replace (a - b - 53 + 52)%Z with (a - (b + 1))%Z by lia.
    assert (Pn : (0 < Qnum q)%Z).
    { destruct q as [n d]. unfold Qlt in Pq. cbn in *. lia. }
    assert (Ha : (0 <= a)%Z) by apply Z.log2_nonneg.
    assert (Hb : (0 <= b + 1)%Z)
      by (pose proof (Z.log2_nonneg (Zpos (Qden q))); lia).
    destruct (Z.log2_spec (Qnum q) Pn) as [La _]. fold a in La.
    destruct (Z.log2_spec (Zpos (Qden q)) eq_refl) as [_ Ub]. fold b in Ub.
    replace (Z.succ b) with (b + 1)%Z in Ub by lia.
    rewrite Qpower_minus by discriminate.
    rewrite <- (Zpower_Qpower 2 a Ha), <- (Zpower_Qpower 2 (b + 1) Hb).
    assert (Pb : (0 < 2 ^ (b + 1))%Z) by (apply Z.pow_pos_nonneg; lia).
    apply Qle_shift_div_r.
    { change 0 with (inject_Z 0). rewrite <- Zlt_Qlt. exact Pb. }
    destruct q as [n d]. cbn [Qnum Qden] in *.
    unfold Qle, Qmult, inject_Z. cbn [Qnum Qden].
    rewrite !Z.mul_1_r, Pos.mul_1_r.
    apply Z.le_trans with (n * Zpos d)%Z; [nia|].
    apply Z.mul_le_mono_nonneg_l; lia.
Qed.

Lemma roundPositive_error (q : Q) :
  0 < q -> Qabs (roundPositive q - q) <= unitRoundoff * q.
Proof.
  intros Pq. unfold roundPositive.
  pose proof (binade_lower q Pq) as L.
  set (e := binade q) in *.
  pose proof (two_power_pos e) as Pp.
  rewrite Qpower_plus in L by discriminate.
  change (2 ^ 52) with 4503599627370496 in L.
  set (p := 2 ^ e) in *. clearbody p.
  pose proof (roundEven_nearest (q / p)) as [N1 N2].
  set (m := inject_Z (roundEven (q / p))) in *. clearbody m.
  assert (S : q / p * p == q) by (field; lra).
  set (s := q / p) in *. clearbody s.
  assert (M1 : - (1 # 2) * p <= (m - s) * p)
    by (apply Qmult_le_compat_r; lra).
  assert (M2 : (m - s) * p <= (1 # 2) * p)
    by (apply Qmult_le_compat_r; lra).
  apply Qabs_Qle_condition. unfold unitRoundoff.
  assert (R : m * p - q == (m - s) * p) by (rewrite <- S; ring).
  rewrite R. split; lra.
Qed.

Lemma round53_compat (p q : Q) : p == q -> round53 p = round53 q.
Proof.
  intros E. unfold round53. rewrite (Qred_complete p q E). reflexivity.
Qed.

(** The rounding error is at most [2 ^ -53] of the value. *)
Lemma round53_error (q : Q) :
  Qabs (round53 q - q) <= unitRoundoff * Qabs q.
Proof.
  unfold round53. pose proof (Qred_correct q) as E.
  set (r := Qred q) in *. clearbody r. rewrite <- E. clear E q.
  destruct r as [n d]. destruct n as [|n|n]; cbn [Qnum].
  - assert (Z : 0 # d == 0) by reflexivity. rewrite Z. cbn.
    unfold unitRoundoff. lra.
  - assert (P : 0 < Zpos n # d) by reflexivity.
    rewrite (Qabs_pos (Zpos n # d)) by lra. apply roundPositive_error, P.
  - assert (P : 0 < - (Zneg n # d)) by reflexivity.
    pose proof (roundPositive_error _ P) as H.
    rewrite (Qabs_neg (Zneg n # d)) by (apply Qlt_le_weak; reflexivity).
    assert (A : - roundPositive (- (Z.neg n # d)) - (Z.neg n # d)
                == - (roundPositive (- (Z.neg n # d)) - - (Z.neg n # d)))
      by ring.
    rewrite A, Qabs_opp. exact H.
Qed.

(** [round53] against the hardware: the quotients, products, differences
    and sums below are computed by the processor's binary64 unit on the left
    and by [round53] on the right. *)
Lemma round53_matches_hardware :
  F2Q (240 / 440) = Some (Qred (Binary64.div 240 440)) /\
  F2Q (240 / 440 * 440)
    = Some (Qred (Binary64.mul (Binary64.div 240 440) 440)) /\
  F2Q (240 / 340 * 340)
    = Some (Qred (Binary64.mul (Binary64.div 240 340) 340)) /\
  F2Q (240 / 2 - 240 / 440 * 440 / 2)
    = Some (Qred (Binary64.sub (Binary64.div 240 2)
                    (Binary64.div
                       (Binary64.mul (Binary64.div 240 440) 440) 2))) /\
  F2Q (240 / 1000 * 3 + 240 / 600)
    = Some (Qred (Binary64.add (Binary64.mul (Binary64.div 240 1000) 3)
                               (Binary64.div 240 600))) /\
  F2Q (0 - 7 / 30000000000)
    = Some (Qred (Binary64.sub 0 (Binary64.div 7 30000000000))).
Proof. vm_compute. repeat split. Qed.

Lemma round53_bounds (q : Q) :
  (0 <= q /\
   q * (1 - unitRoundoff) <= round53 q <= q * (1 + unitRoundoff)) \/
  (q <= 0 /\
   q * (1 + unitRoundoff) <= round53 q <= q * (1 - unitRoundoff)).
Proof.
  pose proof (round53_error q) as E. apply Qabs_Qle_condition in E.
  destruct (Qlt_le_dec q 0) as [N | P].
  - right. rewrite (Qabs_neg q) in E by lra. lra.
  - left. rewrite (Qabs_pos q) in E by lra. lra.
Qed.

(** The same for a rounded quotient multiplied back by its divisor. *)
Lemma quotient_bounds (a c : Q) :
  0 < c ->
  (0 <= a /\
   a * (1 - unitRoundoff) <= round53 (a / c) * c <= a * (1 + unitRoundoff)) \/
  (a <= 0 /\
   a * (1 + unitRoundoff) <= round53 (a / c) * c <= a * (1 - unitRoundoff)).
Proof.
  intros Pc.
  assert (E : a / c * c == a) by (field; lra).
  destruct (round53_bounds (a / c)) as [(S & L & U) | (S & L & U)].
  - left.
    assert (Sa : 0 <= a)
      by (rewrite <- E; apply Qmult_le_0_compat; lra).
    apply (Qmult_le_compat_r _ _ c) in L; [|lra].
    apply (Qmult_le_compat_r _ _ c) in U; [|lra].
    split; [exact Sa|]. split.
    + rewrite <- E at 1. lra.
    + rewrite <- E at 2. lra.
  - right.
    assert (Sa : a <= 0).
    { rewrite <- E. apply (Qmult_le_compat_r _ _ c) in S; lra. }
    apply (Qmult_le_compat_r _ _ c) in L; [|lra].
    apply (Qmult_le_compat_r _ _ c) in U; [|lra].
    split; [exact Sa|]. split.
    + rewrite <- E at 1. lra.
    + rewrite <- E at 2. lra.
Qed.

(** Abstract every rounding of the goal by a variable constrained by its
    error bound. *)
Ltac forget_rounding :=
  repeat match goal with
  | |- context [round53 ?q] =>
      let r := fresh "r" in
      pose proof (round53_bounds q); set (r := round53 q) in *; clearbody r
  | H : context [round53 ?q] |- _ =>
      let r := fresh "r" in
      pose proof (round53_bounds q); set (r := round53 q) in *; clearbody r
  end.

Ltac rounding_lra :=
  forget_rounding; forget_minmax; unfold unitRoundoff in *; halves; lra.

(** ** The cover fit after rounding *)

Lemma baseScaleOf64_known (F : Q) (s : Size) :
  unknownSize s = false ->
  Binary64.baseScaleOf F s
  = Qmax (Binary64.div F (width s)) (Binary64.div F (height s)).
Proof. intros E. unfold Binary64.baseScaleOf. rewrite E. reflexivity. Qed.

(** The product of the base scale and a side [m] that is one of the two
    native sides, exact and rounded, against the frame side. *)
Lemma baseScale_side_product (F w h m : Q) :
  0 < m -> m = w \/ m = h ->
  let b := Qmax (Binary64.div F w) (Binary64.div F h) in
  F - 3 * unitRoundoff * Qabs F <= b * m /\
  F - 3 * unitRoundoff * Qabs F <= Binary64.mul b m.
Proof.
  intros Pm Hm b.
  assert (Hq : Binary64.div F m <= b).
  { subst b. destruct Hm as [-> | ->]; [apply Q.le_max_l | apply Q.le_max_r]. }
  assert (Hp : Binary64.div F m * m <= b * m)
    by (apply Qmult_le_compat_r; lra).
  pose proof (quotient_bounds F m Pm) as Q0.
  unfold Binary64.mul. unfold Binary64.div in Hq, Hp. fold (b * m) in *.
  pose proof (round53_bounds (b * m)) as R0.
  set (T := b * m) in *. clearbody T.
  set (rT := round53 T) in *. clearbody rT.
  set (qm := round53 (F / m) * m) in *. clearbody qm.
  destruct (Qlt_le_dec F 0) as [N | P].
  - rewrite (Qabs_neg F) by lra. unfold unitRoundoff in *. split; lra.
  - rewrite (Qabs_pos F) by lra. unfold unitRoundoff in *. split; lra.
Qed.

(** C3 as stated fails on the code: for a 440 x 440 image the base scale
    [fl (240 / 440)] times 440 is below 240, whether the product is exact
    or rounded (239.99999999999997). *)
Lemma baseScale_product_below_frame :
  ~ (240 <= Binary64.baseScaleOf 240 (mkSize 440 440) * Qmin 440 440) /\
  ~ (240 <= Binary64.mul (Binary64.baseScaleOf 240 (mkSize 440 440))
                         (Qmin 440 440)).
Proof. split; apply Qlt_not_le; vm_compute; reflexivity. Qed.

(** C3, amended.  For positive native sides [w], [h] and any frame side
    [F], the base scale is the larger of the rounded quotients [F / w] and
    [F / h], and its product with the shorter side, exact or rounded, is at
    least [F - 3 * 2 ^ -53 * |F|]; when a dimension is unknown (zero) the
    base scale is [1].  The component's [baseScale] is the instance at
    [CROP_SIZE]. *)
Theorem baseScale_cover_fit_rounded :
  (forall F w h : Q, 0 < w -> 0 < h ->
     Binary64.baseScaleOf F (mkSize w h)
     = Qmax (Binary64.div F w) (Binary64.div F h) /\
     F - 3 * unitRoundoff * Qabs F
       <= Binary64.baseScaleOf F (mkSize w h) * Qmin w h /\
     F - 3 * unitRoundoff * Qabs F
       <= Binary64.mul (Binary64.baseScaleOf F (mkSize w h)) (Qmin w h)) /\
  (forall F w h : Q, w == 0 \/ h == 0 ->
     Binary64.baseScaleOf F (mkSize w h) = 1) /\
  (forall imageSize : Size,
     Binary64.baseScale imageSize = Binary64.baseScaleOf CROP_SIZE imageSize).
Proof.
  split; [|split].
  - intros F w h Hw Hh.
    rewrite baseScaleOf64_known by (apply unknownSize_positive; assumption).
    cbn [width height]. split; [reflexivity|].
    apply baseScale_side_product.
    + destruct (Q.min_spec w h) as [[_ E] | [_ E]]; rewrite E; assumption.
    + unfold Qmin, GenericMinMax.gmin. destruct (Qcompare w h); tauto.
  - intros F w h H. unfold Binary64.baseScaleOf.
    replace (unknownSize (mkSize w h)) with true; [reflexivity|].
    symmetry. apply unknownSize_true_iff. exact H.
  - reflexivity.
Qed.

Lemma baseScale_cover_fit_rounded_witness :
  (Binary64.baseScaleOf 240 (mkSize 440 440)
   = Qmax (Binary64.div 240 440) (Binary64.div 240 440) /\
   240 - 3 * unitRoundoff * Qabs 240
     <= Binary64.baseScaleOf 240 (mkSize 440 440) * Qmin 440 440 /\
   240 - 3 * unitRoundoff * Qabs 240
     <= Binary64.mul (Binary64.baseScaleOf 240 (mkSize 440 440))
                     (Qmin 440 440)) /\
  Binary64.baseScaleOf 240 (mkSize 0 600) = 1.
Proof.
  split.
  - apply (proj1 baseScale_cover_fit_rounded 240 440 440); reflexivity.
  - apply (proj1 (proj2 baseScale_cover_fit_rounded) 240 0 600).
    left. reflexivity.
Defined.

(** The display scale is positive and each display side is at least the
    frame side less three roundings. *)
Lemma display_lower (size : Size) (s : Q) :
  0 < width size -> 0 < height size -> 1 <= s ->
  0 < Binary64.displayScale size s /\
  CROP_SIZE * (1 - 3 * unitRoundoff) <= Binary64.displayWidth size s /\
  CROP_SIZE * (1 - 3 * unitRoundoff) <= Binary64.displayHeight size s.
Proof.
  intros Hw Hh Hs.
  unfold Binary64.displayWidth, Binary64.displayHeight,
    Binary64.displayScale, Binary64.baseScale.
  rewrite baseScaleOf64_known by (apply unknownSize_positive; assumption).
  unfold Binary64.mul, Binary64.div, CROP_SIZE.
  set (w := width size) in *. set (h := height size) in *.
  pose proof (quotient_bounds 240 w Hw) as Qw.
  pose proof (quotient_bounds 240 h Hh) as Qh.
  set (qw := round53 (240 / w)) in *. set (qh := round53 (240 / h)) in *.
  clearbody qw qh.
  assert (Bw : qw <= Qmax qw qh) by apply Q.le_max_l.
  assert (Bh : qh <= Qmax qw qh) by apply Q.le_max_r.
  set (b := Qmax qw qh) in *. clearbody b.
  assert (Pw : 0 < qw).
  { apply Qnot_le_lt. intros C.
    apply (Qmult_le_compat_r _ _ w) in C; [|lra].
    unfold unitRoundoff in *. lra. }
  assert (Pb : 0 < b) by lra.
  assert (Ts : b * 1 <= b * s) by (apply Qmult_le_l; assumption).
  pose proof (round53_bounds (b * s)) as Rs.
  set (ds := round53 (b * s)) in *. clearbody ds.
  assert (Ds : b * (1 - unitRoundoff) <= ds)
    by (unfold unitRoundoff in *; lra).
  assert (Pd : 0 < ds) by (unfold unitRoundoff in *; lra).
  assert (Mw : w * (b * (1 - unitRoundoff)) <= w * ds)
    by (apply Qmult_le_l; assumption).
  assert (Mh : h * (b * (1 - unitRoundoff)) <= h * ds)
    by (apply Qmult_le_l; assumption).
  assert (Nw : qw * w <= b * w) by (apply Qmult_le_compat_r; lra).
  assert (Nh : qh * h <= b * h) by (apply Qmult_le_compat_r; lra).
  assert (Aw : w * (b * (1 - unitRoundoff)) == b * w * (1 - unitRoundoff))
    by ring.
  assert (Ah : h * (b * (1 - unitRoundoff)) == b * h * (1 - unitRoundoff))
    by ring.
  pose proof (round53_bounds (w * ds)) as Rw.
  pose proof (round53_bounds (h * ds)) as Rh.
  set (Dw := round53 (w * ds)) in *. set (Dh := round53 (h * ds)) in *.
  clearbody Dw Dh.
  set (Pw' := w * ds) in *. set (Ph' := h * ds) in *.
  set (bw := b * w) in *. set (bh := b * h) in *.
  set (qww := qw * w) in *. set (qhh := qh * h) in *.
  set (wb := w * (b * (1 - unitRoundoff))) in *.
  set (hb := h * (b * (1 - unitRoundoff))) in *.
  clearbody Pw' Ph' bw bh qww qhh wb hb.
  unfold unitRoundoff in *. repeat split; lra.
Qed.

(** The arithmetic of one axis: for a display size [D] and an offset [c]
    within the pan bound, the image edge as [handleApply] computes it. *)
Lemma cover_one_axis (D c : Q) :
  240 * (1 - 3 * unitRoundoff) <= D ->
  let bound := Qmax 0 (Binary64.div (Binary64.sub D 240) 2) in
  - bound <= c <= bound ->
  let edge :=
    Binary64.add (Binary64.sub (Binary64.div 240 2) (Binary64.div D 2)) c in
  edge <= 4 * unitRoundoff * (D + 240) /\
  240 - 4 * unitRoundoff * (D + 240) <= edge + D.
Proof.
  intros HD bound Hc edge. subst edge bound.
  unfold Binary64.add, Binary64.sub, Binary64.div in *.
  forget_rounding. forget_minmax. unfold unitRoundoff in *. halves.
  split; lra.
Qed.

Lemma clampOffset64_known (size : Size) (o : Offset) (s : Q) :
  unknownSize size = false ->
  Binary64.clampOffset size o s =
  let maxX :=
    Qmax 0 (Binary64.div
              (Binary64.sub (Binary64.displayWidth size s) CROP_SIZE) 2) in
  let maxY :=
    Qmax 0 (Binary64.div
              (Binary64.sub (Binary64.displayHeight size s) CROP_SIZE) 2) in
  {| x := Qmin maxX (Qmax (- maxX) (x o));
     y := Qmin maxY (Qmax (- maxY) (y o)) |}.
Proof. intros E. unfold Binary64.clampOffset. rewrite E. reflexivity. Qed.

(** An offset that the clamp leaves in place is within the pan bounds. *)
Lemma fixed_offset_within_bounds (size : Size) (o : Offset) (s : Q) :
  unknownSize size = false ->
  offset_eq (Binary64.clampOffset size o s) o ->
  let maxX :=
    Qmax 0 (Binary64.div
              (Binary64.sub (Binary64.displayWidth size s) CROP_SIZE) 2) in
  let maxY :=
    Qmax 0 (Binary64.div
              (Binary64.sub (Binary64.displayHeight size s) CROP_SIZE) 2) in
  - maxX <= x o <= maxX /\ - maxY <= y o <= maxY.
Proof.
  intros E Fix. rewrite clampOffset64_known in Fix by exact E.
  destruct Fix as [Fx Fy]. cbv zeta in *. cbn [x y] in Fx, Fy.
  split.
  - pose proof (clamp_axis_bounds
      (Qmax 0 (Binary64.div
                 (Binary64.sub (Binary64.displayWidth size s) CROP_SIZE) 2))
      (x o) (Q.le_max_l _ _)) as B.
    rewrite Fx in B. exact B.
  - pose proof (clamp_axis_bounds
      (Qmax 0 (Binary64.div
                 (Binary64.sub (Binary64.displayHeight size s) CROP_SIZE) 2))
      (y o) (Q.le_max_l _ _)) as B.
    rewrite Fy in B. exact B.
Qed.

(** The four edges of the displayed image for an offset within the pan
    bounds. *)
Lemma edges_within_tolerance (size : Size) (s : Q) (o : Offset) :
  0 < width size -> 0 < height size -> 1 <= s ->
  (let maxX :=
     Qmax 0 (Binary64.div
               (Binary64.sub (Binary64.displayWidth size s) CROP_SIZE) 2) in
   - maxX <= x o <= maxX) ->
  (let maxY :=
     Qmax 0 (Binary64.div
               (Binary64.sub (Binary64.displayHeight size s) CROP_SIZE) 2) in
   - maxY <= y o <= maxY) ->
  Binary64.imageLeft size s o
    <= coverTolerance (Binary64.displayWidth size s) /\
  CROP_SIZE - coverTolerance (Binary64.displayWidth size s)
    <= Binary64.imageLeft size s o + Binary64.displayWidth size s /\
  Binary64.imageTop size s o
    <= coverTolerance (Binary64.displayHeight size s) /\
  CROP_SIZE - coverTolerance (Binary64.displayHeight size s)
    <= Binary64.imageTop size s o + Binary64.displayHeight size s.
Proof.
  intros Hw Hh Hs Bx By.
  destruct (display_lower size s Hw Hh Hs) as (_ & Lw & Lh).
  unfold coverTolerance, Binary64.imageLeft, Binary64.imageTop, CROP_SIZE in *.
  destruct (cover_one_axis _ (x o) Lw Bx) as [X1 X2].
  destruct (cover_one_axis _ (y o) Lh By) as [Y1 Y2].
  repeat split; assumption.
Qed.

(** C1 as stated fails on the code: for a 440 x 440 image at scale 1 the
    display width is 239.99999999999997, the clamp returns the zero offset
    and the image starts 1.4e-14 after the frame does. *)
Lemma clampOffset_leaves_gap :
  Binary64.clampOffset (mkSize 440 440) (mkOffset 0 0) 1 = mkOffset 0 0 /\
  0 < Binary64.imageLeft (mkSize 440 440) 1 (mkOffset 0 0) /\
  Binary64.coversFrame (mkSize 440 440) 1
    (Binary64.clampOffset (mkSize 440 440) (mkOffset 0 0) 1) = false.
Proof. vm_compute. repeat split. Qed.

(** C1, amended.  For known positive native dimensions, a scale in
    [[1, 3]] and any candidate offset, the offset returned by [clampOffset]
    leaves the displayed image covering the crop frame on both axes up to
    rounding: on each axis the image starts no later than
    [coverTolerance display] after the frame and ends no earlier than
    [coverTolerance display] before it, with [coverTolerance display =
    2 ^ -51 * (display + CROP_SIZE)]. *)
Theorem clampOffset_covers_frame_rounded (size : Size) (s : Q) (o : Offset) :
  0 < width size -> 0 < height size ->
  1 <= s <= 3 ->
  let c := Binary64.clampOffset size o s in
  Binary64.imageLeft size s c
    <= coverTolerance (Binary64.displayWidth size s) /\
  CROP_SIZE - coverTolerance (Binary64.displayWidth size s)
    <= Binary64.imageLeft size s c + Binary64.displayWidth size s /\
  Binary64.imageTop size s c
    <= coverTolerance (Binary64.displayHeight size s) /\
  CROP_SIZE - coverTolerance (Binary64.displayHeight size s)
    <= Binary64.imageTop size s c + Binary64.displayHeight size s.
Proof.
  intros Hw Hh [Hs _] c. subst c.
  assert (E : unknownSize size = false)
    by (apply unknownSize_positive; assumption).
  rewrite clampOffset64_known by exact E. cbv zeta.
  apply edges_within_tolerance; try assumption; cbv zeta; cbn [x y];
    apply clamp_axis_bounds, Q.le_max_l.
Qed.

Lemma clampOffset_covers_frame_rounded_witness :
  let c := Binary64.clampOffset (mkSize 440 440) (mkOffset 500 (-500)) 1 in
  Binary64.imageLeft (mkSize 440 440) 1 c
    <= coverTolerance (Binary64.displayWidth (mkSize 440 440) 1) /\
  CROP_SIZE - coverTolerance (Binary64.displayWidth (mkSize 440 440) 1)
    <= Binary64.imageLeft (mkSize 440 440) 1 c
       + Binary64.displayWidth (mkSize 440 440) 1 /\
  Binary64.imageTop (mkSize 440 440) 1 c
    <= coverTolerance (Binary64.displayHeight (mkSize 440 440) 1) /\
  CROP_SIZE - coverTolerance (Binary64.displayHeight (mkSize 440 440) 1)
    <= Binary64.imageTop (mkSize 440 440) 1 c
       + Binary64.displayHeight (mkSize 440 440) 1.
Proof.
  apply (clampOffset_covers_frame_rounded (mkSize 440 440) 1
           (mkOffset 500 (-500))); cbn [width height]; lra.
Defined.

(** ** The export rectangle after rounding *)

(** The arithmetic of one axis of the export, with the products by the
    display scale as unknowns: [P] is native side times display scale, [D]
    its rounding, [edge] the image edge, [S] and [Z] the computed source
    origin and source size multiplied back by the display scale. *)
Lemma rect_one_axis (P D edge n S Z : Q) :
  240 * (1 - 3 * unitRoundoff) <= D ->
  P * (1 - unitRoundoff) <= D <= P * (1 + unitRoundoff) ->
  edge <= 4 * unitRoundoff * (D + 240) ->
  240 - 4 * unitRoundoff * (D + 240) <= edge + D ->
  ((0 <= 0 - edge /\
    (0 - edge) * (1 - unitRoundoff) <= n <= (0 - edge) * (1 + unitRoundoff)) \/
   (0 - edge <= 0 /\
    (0 - edge) * (1 + unitRoundoff) <= n <= (0 - edge) * (1 - unitRoundoff))) ->
  ((0 <= n /\ n * (1 - unitRoundoff) <= S <= n * (1 + unitRoundoff)) \/
   (n <= 0 /\ n * (1 + unitRoundoff) <= S <= n * (1 - unitRoundoff))) ->
  240 * (1 - unitRoundoff) <= Z <= 240 * (1 + unitRoundoff) ->
  - (16 * unitRoundoff) * P <= S /\
  S + Z <= (1 + 16 * unitRoundoff) * P.
Proof. unfold unitRoundoff. intros. split; lra. Qed.

Lemma sourceRect64_unfold (size : Size) (s : Q) (o : Offset) :
  Binary64.sourceRect size s o =
  if falsy (Binary64.displayScale size s) then None
  else
    Some {| sourceX :=
              Binary64.div (Binary64.sub 0 (Binary64.imageLeft size s o))
                           (Binary64.displayScale size s);
            sourceY :=
              Binary64.div (Binary64.sub 0 (Binary64.imageTop size s o))
                           (Binary64.displayScale size s);
            sourceSize :=
              Binary64.div CROP_SIZE (Binary64.displayScale size s) |}.
Proof.
  unfold Binary64.sourceRect, Binary64.imageLeft, Binary64.imageTop,
    Binary64.displayWidth, Binary64.displayHeight, Binary64.displayScale.
  cbv zeta. destruct (falsy _); reflexivity.
Qed.

(** From the products back to the coordinates. *)
Lemma rect_axis_within (side ds edge : Q) :
  0 < ds ->
  240 * (1 - 3 * unitRoundoff) <= round53 (side * ds) ->
  edge <= 4 * unitRoundoff * (round53 (side * ds) + 240) ->
  240 - 4 * unitRoundoff * (round53 (side * ds) + 240)
    <= edge + round53 (side * ds) ->
  let origin := Binary64.div (Binary64.sub 0 edge) ds in
  let extent := Binary64.div 240 ds in
  - (rectTolerance * side) <= origin /\
  origin + extent <= side * (1 + rectTolerance).
Proof.
  intros Pd HD E1 E2 origin extent. subst origin extent.
  unfold Binary64.div, Binary64.sub, rectTolerance.
  pose proof (round53_bounds (side * ds)) as RD.
  pose proof (round53_bounds (0 - edge)) as Rn.
  pose proof (quotient_bounds (round53 (0 - edge)) ds Pd) as RS.
  pose proof (quotient_bounds 240 ds Pd) as RZ.
  set (D := round53 (side * ds)) in *. clearbody D.
  set (n := round53 (0 - edge)) in *. clearbody n.
  set (sx := round53 (n / ds)) in *. clearbody sx.
  set (sz := round53 (240 / ds)) in *. clearbody sz.
  assert (PD : side * ds * (1 - unitRoundoff) <= D
               <= side * ds * (1 + unitRoundoff)).
  { unfold unitRoundoff in *. lra. }
  assert (PZ : 240 * (1 - unitRoundoff) <= sz * ds
               <= 240 * (1 + unitRoundoff)).
  { unfold unitRoundoff in *. lra. }
  destruct (rect_one_axis (side * ds) D edge n (sx * ds) (sz * ds)
              HD PD E1 E2 Rn RS PZ) as [G1 G2].
  split.
  - apply (Qmult_le_r _ _ ds Pd).
    assert (A : - (16 * unitRoundoff * side) * ds
                == - (16 * unitRoundoff) * (side * ds)) by ring.
    rewrite A. exact G1.
  - apply (Qmult_le_r _ _ ds Pd).
    assert (A : (sx + sz) * ds == sx * ds + sz * ds) by ring.
    assert (B : side * (1 + 16 * unitRoundoff) * ds
                == (1 + 16 * unitRoundoff) * (side * ds)) by ring.
    rewrite A, B. exact G2.
Qed.

(** C6 as stated fails on the code: for a 440 x 440 image at scale 1 the
    zero offset is a fixed point of [clampOffset], and the source rectangle
    starts before the image (-2.6e-14) and ends after it. *)
Lemma sourceRect_passes_image :
  offset_eq (Binary64.clampOffset (mkSize 440 440) (mkOffset 0 0) 1)
            (mkOffset 0 0) /\
  exists r : SourceRect,
    Binary64.sourceRect (mkSize 440 440) 1 (mkOffset 0 0) = Some r /\
    sourceX r < 0 /\
    440 < sourceX r + sourceSize r.
Proof.
  split; [split; vm_compute; reflexivity|].
  eexists. split; [vm_compute; reflexivity|].
  split; vm_compute; reflexivity.
Qed.

(** C6, amended.  With known positive dimensions, a scale in [[1, 3]] and
    an offset that [clampOffset] leaves in place, the source rectangle of
    the export lies within the native image up to rounding: it starts no
    more than [rectTolerance] times the native side before the image and
    ends no more than that after it, on both axes, with [rectTolerance =
    2 ^ -49]. *)
Theorem sourceRect_within_image_rounded (size : Size) (s : Q) (o : Offset) :
  0 < width size -> 0 < height size ->
  1 <= s <= 3 ->
  offset_eq (Binary64.clampOffset size o s) o ->
  exists r : SourceRect,
    Binary64.sourceRect size s o = Some r /\
    - (rectTolerance * width size) <= sourceX r /\
    - (rectTolerance * height size) <= sourceY r /\
    sourceX r + sourceSize r <= width size * (1 + rectTolerance) /\
    sourceY r + sourceSize r <= height size * (1 + rectTolerance).
Proof.
  intros Hw Hh [Hs _] Fix.
  assert (E : unknownSize size = false)
    by (apply unknownSize_positive; assumption).
  destruct (fixed_offset_within_bounds size o s E Fix) as [Bx By].
  destruct (display_lower size s Hw Hh Hs) as (Pd & Lw & Lh).
  destruct (edges_within_tolerance size s o Hw Hh Hs Bx By)
    as (X1 & X2 & Y1 & Y2).
  rewrite sourceRect64_unfold.
  assert (Nz : falsy (Binary64.displayScale size s) = false)
    by (apply falsy_false_iff; lra).
  rewrite Nz. eexists. split; [reflexivity|]. cbn [sourceX sourceY sourceSize].
  unfold coverTolerance, CROP_SIZE in *.
  unfold Binary64.displayWidth, Binary64.displayHeight, Binary64.mul
    in Lw, Lh, X1, X2, Y1, Y2.
  destruct (rect_axis_within (width size) _ _ Pd Lw X1 X2) as [A1 A2].
  destruct (rect_axis_within (height size) _ _ Pd Lh Y1 Y2) as [B1 B2].
  repeat split; assumption.
Qed.

Lemma sourceRect_within_image_rounded_witness :
  exists r : SourceRect,
    Binary64.sourceRect (mkSize 440 440) 1 (mkOffset 0 0) = Some r /\
    - (rectTolerance * 440) <= sourceX r /\
    - (rectTolerance * 440) <= sourceY r /\
    sourceX r + sourceSize r <= 440 * (1 + rectTolerance) /\
    sourceY r + sourceSize r <= 440 * (1 + rectTolerance).
Proof.
  apply (sourceRect_within_image_rounded (mkSize 440 440) 1 (mkOffset 0 0));
    cbn [width height]; try lra.
  split; vm_compute; reflexivity.
Defined.
